(** * A fixed-capacity LRU cache: [LLD/LRU Caching/lru_cache.py]

    The Python class [LRUCache] keeps a [collections.OrderedDict] whose
    iteration order is the recency order: the first item is the least
    recently used one, the last item the most recently used one.  Every
    method runs its body under [with self.lock].

    A method is embedded as a program: a tree of the atomic operations it
    performs on the object (taking and releasing the lock, the dictionary
    methods), each followed by what the method does with the result.  A
    program is run to its end on a store by [call]; several threads
    interleave the operations of their programs, one at a time. *)

From Stdlib Require Import ZArith Lia.
From stdpp Require Import base list strings pretty.

Local Open Scope Z_scope.

(** ** Python values and exceptions *)

(** The values the methods store and return: [None] (from [put] and
    [clear]), booleans (from [is_full]), integers (from [get_size], and the
    sentinel [-1]) and strings. *)
Inductive pyval : Type :=
| PyNone
| PyBool (b : bool)
| PyInt (z : Z)
| PyStr (s : string).

#[global] Instance pyval_eq_dec : EqDecision pyval.
Proof. solve_decision. Defined.

Inductive exn : Type :=
| ValueError (msg : string)
| KeyError
| RuntimeError.

(** The value [get] and [peek] return for a key that is not stored. *)
Definition NOT_FOUND : pyval := PyInt (-1).

(** ** [collections.OrderedDict] *)

(** An ordered dictionary is the list of its items in iteration order.
    Keys are any type with decidable equality (Python: hashable, with [==]
    an equality). *)
Section OrderedDict.
Context {K : Type} `{EqDecision K}.

(** [key in d] *)
Fixpoint od_contains (key : K) (d : list (K * pyval)) : bool :=
  match d with
  | [] => false
  | (k, _) :: d' => if decide (k = key) then true else od_contains key d'
  end.

(** The value stored under [key], if any. *)
Fixpoint od_lookup (key : K) (d : list (K * pyval)) : option pyval :=
  match d with
  | [] => None
  | (k, v) :: d' => if decide (k = key) then Some v else od_lookup key d'
  end.

(** The items of [d] without the item of [key]. *)
Fixpoint od_remove (key : K) (d : list (K * pyval)) : list (K * pyval) :=
  match d with
  | [] => []
  | (k, v) :: d' => if decide (k = key) then d' else (k, v) :: od_remove key d'
  end.

(** [d.pop(key)]: the value and the remaining items; [KeyError] when the
    key is missing. *)
Definition od_pop (key : K) (d : list (K * pyval))
  : exn + (pyval * list (K * pyval)) :=
  match od_lookup key d with
  | Some v => inr (v, od_remove key d)
  | None => inl KeyError
  end.

(** [d.popitem(last=False)]: the first item and the remaining items;
    [KeyError] on an empty dictionary. *)
Definition od_popitem_first (d : list (K * pyval))
  : exn + ((K * pyval) * list (K * pyval)) :=
  match d with
  | [] => inl KeyError
  | kv :: d' => inr (kv, d')
  end.

(** [d[key] = value]: an existing key keeps its position and gets the new
    value, a new key goes to the end. *)
Fixpoint od_setitem (key : K) (value : pyval) (d : list (K * pyval))
  : list (K * pyval) :=
  match d with
  | [] => [(key, value)]
  | (k, v) :: d' =>
      if decide (k = key) then (k, value) :: d'
      else (k, v) :: od_setitem key value d'
  end.

(** [d.get(key, default)] *)
Definition od_get (key : K) (default : pyval) (d : list (K * pyval)) : pyval :=
  match od_lookup key d with
  | Some v => v
  | None => default
  end.

(** [len(d)] *)
Definition od_len (d : list (K * pyval)) : Z := Z.of_nat (length d).

(** The two ends of the recency order. *)
Definition lru_item (d : list (K * pyval)) : option (K * pyval) := head d.
Definition mru_item (d : list (K * pyval)) : option (K * pyval) := last d.

End OrderedDict.

(** ** The class [LRUCache] *)

Section LRUCache.
Context {K : Type} `{EqDecision K}.

(** The instance attributes.  [lock] is [true] while the
    [threading.Lock] is held. *)
Record LRUCache : Type := mkLRUCache {
  capacity : Z;
  cache : list (K * pyval);
  lock : bool
}.

Definition set_cache (d : list (K * pyval)) (self : LRUCache) : LRUCache :=
  {| capacity := capacity self; cache := d; lock := lock self |}.

Definition set_lock (b : bool) (self : LRUCache) : LRUCache :=
  {| capacity := capacity self; cache := cache self; lock := b |}.

(** The occupancy of the store. *)
Definition occupancy (self : LRUCache) : Z := od_len (cache self).

(** *** Atomic operations *)

(** What a method does to the object, one operation at a time, indexed by
    the type of what the operation gives back. *)
Inductive action : Type -> Type :=
| LockAcquire : action unit
| LockRelease : action unit
| ReadCapacity : action Z
| CacheContains (key : K) : action bool
| CacheLen : action Z
| CachePop (key : K) : action pyval
| CachePopitemFirst : action (K * pyval)
| CacheSetitem (key : K) (value : pyval) : action unit
| CacheGet (key : K) (default : pyval) : action pyval
| CacheClear : action unit.

(** The effect of an operation on the object: its result, or the
    exception it raises, and the object afterwards.  [None]: the
    operation cannot take place now, which is the case of acquiring a
    lock that is held (the lock is not reentrant). *)
Definition perform {B} (act : action B) (self : LRUCache)
  : option ((exn + B) * LRUCache) :=
  match act with
  | LockAcquire =>
      if lock self then None else Some (inr tt, set_lock true self)
  | LockRelease =>
      if lock self then Some (inr tt, set_lock false self)
      else Some (inl RuntimeError, self)
  | ReadCapacity => Some (inr (capacity self), self)
  | CacheContains key => Some (inr (od_contains key (cache self)), self)
  | CacheLen => Some (inr (od_len (cache self)), self)
  | CachePop key =>
      match od_pop key (cache self) with
      | inl e => Some (inl e, self)
      | inr (v, d) => Some (inr v, set_cache d self)
      end
  | CachePopitemFirst =>
      match od_popitem_first (cache self) with
      | inl e => Some (inl e, self)
      | inr (kv, d) => Some (inr kv, set_cache d self)
      end
  | CacheSetitem key value =>
      Some (inr tt, set_cache (od_setitem key value (cache self)) self)
  | CacheGet key default => Some (inr (od_get key default (cache self)), self)
  | CacheClear => Some (inr tt, set_cache [] self)
  end.

(** *** Programs *)

(** A program returns, raises, or performs an operation and goes on
    according to its result. *)
Inductive prog (A : Type) : Type :=
| Ret (a : A)
| Throw (e : exn)
| Do {B : Type} (act : action B) (k : exn + B -> prog A).
Arguments Ret {A} a.
Arguments Throw {A} e.
Arguments Do {A B} act k.

Fixpoint bind {A B} (p : prog A) (f : A -> prog B) : prog B :=
  match p with
  | Ret a => f a
  | Throw e => Throw e
  | Do act k => Do act (fun r => bind (k r) f)
  end.

#[global] Instance prog_ret : MRet prog := @Ret.
#[global] Instance prog_bind : MBind prog := fun A B f p => bind p f.

(** An operation as a statement: its exception, if any, propagates. *)
Definition do {B} (act : action B) : prog B :=
  Do act (fun r => match r with inl e => Throw e | inr b => Ret b end).

(** [try: p finally: fin] *)
Fixpoint try_finally {A} (p : prog A) (fin : prog unit) : prog A :=
  match p with
  | Ret a => bind fin (fun _ => Ret a)
  | Throw e => bind fin (fun _ => Throw e)
  | Do act k => Do act (fun r => try_finally (k r) fin)
  end.

(** [with self.lock: body]: acquires the lock, waiting for it; releases
    it when the body ends, by a return or by an exception. *)
Definition with_lock {A} (body : prog A) : prog A :=
  do LockAcquire;; try_finally body (do LockRelease).

(** How a call ends: it returns a value, it raises, or it waits for ever
    on a lock that is held.  The object is left in a state in the first
    two cases. *)
Inductive outcome (A : Type) : Type :=
| Return (a : A) (self : LRUCache)
| Raise (e : exn) (self : LRUCache)
| Blocked.
Arguments Return {A} a self.
Arguments Raise {A} e self.
Arguments Blocked {A}.

(** A program run to its end by one caller, nobody else touching the
    object. *)
Fixpoint call {A} (p : prog A) (self : LRUCache) : outcome A :=
  match p with
  | Ret a => Return a self
  | Throw e => Raise e self
  | Do act k =>
      match perform act self with
      | Some (r, self') => call (k r) self'
      | None => Blocked
      end
  end.

(** *** The methods *)

(** [LRUCache(capacity)] *)
Definition __init__ (capacity : Z) : exn + LRUCache :=
  if capacity <=? 0 then inl (ValueError "Capacity must be positive")
  else inr {| capacity := capacity; cache := []; lock := false |}.

(** [get(self, key)] *)
Definition get (key : K) : prog pyval :=
  with_lock (
    present ← do (CacheContains key);
    if negb present then mret NOT_FOUND
    else
      value ← do (CachePop key);
      do (CacheSetitem key value);;
      mret value).

(** [put(self, key, value)] *)
Definition put (key : K) (value : pyval) : prog pyval :=
  with_lock (
    present ← do (CacheContains key);
    (if (present : bool) then
       do (CachePop key);; mret tt
     else
       n ← do CacheLen;
       c ← do ReadCapacity;
       if n >=? c then do CachePopitemFirst;; mret tt
       else mret tt);;
    do (CacheSetitem key value);;
    mret PyNone).

(** [clear(self)] *)
Definition clear : prog pyval :=
  with_lock (do CacheClear;; mret PyNone).

(** [get_size(self)] *)
Definition get_size : prog pyval :=
  with_lock (n ← do CacheLen; mret (PyInt n)).

(** [is_full(self)] *)
Definition is_full : prog pyval :=
  with_lock (
    n ← do CacheLen;
    c ← do ReadCapacity;
    mret (PyBool (n >=? c))).

(** [peek(self, key)] *)
Definition peek (key : K) : prog pyval :=
  with_lock (do (CacheGet key NOT_FOUND)).

(** *** Sequences of calls *)

Inductive op : Type :=
| OpGet (key : K)
| OpPut (key : K) (value : pyval)
| OpPeek (key : K)
| OpClear
| OpSize
| OpIsFull.

Definition run_op (o : op) : prog pyval :=
  match o with
  | OpGet key => get key
  | OpPut key value => put key value
  | OpPeek key => peek key
  | OpClear => clear
  | OpSize => get_size
  | OpIsFull => is_full
  end.

(** The calls of a list one after the other, collecting what they
    return; an exception ends the run. *)
Fixpoint run_ops (os : list op) : prog (list pyval) :=
  match os with
  | [] => mret []
  | o :: os' =>
      r ← run_op o;
      rs ← run_ops os';
      mret (r :: rs)
  end.

(** The states a single caller can have in hand: the one the constructor
    makes, and the ones a call leaves, whether it returns or raises. *)
Inductive reachable : LRUCache -> Prop :=
| reachable_init c self :
    __init__ c = inr self -> reachable self
| reachable_return o r self self' :
    reachable self -> call (run_op o) self = Return r self' -> reachable self'
| reachable_raise o e self self' :
    reachable self -> call (run_op o) self = Raise e self' -> reachable self'.

(** [put(key, _)] evicts when the key is new and the store is at
    capacity. *)
Definition put_evicts (key : K) (self : LRUCache) : bool :=
  negb (od_contains key (cache self)) &&
  (od_len (cache self) >=? capacity self).

(** *** Threads *)

(** The threads of [test_concurrent_access] call the methods of one
    object.  Their executions interleave: at each point one thread
    performs one operation, an operation takes place as a whole, and a
    thread that wants a lock that is held does not step until the lock is
    free.  Nothing is assumed of the order in which the threads step.

    A thread makes the calls of a list one after the other.  It is
    described by the calls it has yet to make, the call it is in with what
    is left of its program, the calls it has made with what they returned,
    and the exception that ended it, if one did. *)
Record thread : Type := mkThread {
  pending : list op;
  current : option (op * prog pyval);
  history : list (op * pyval);
  crashed : option exn
}.

Definition spawn (os : list op) : thread :=
  {| pending := os; current := None; history := []; crashed := None |}.

(** One step of a thread on the shared object: it enters its next call,
    performs the next operation of the call it is in, or leaves the call
    with its result.  An exception that leaves a call ends the thread.
    [None]: the thread has nothing to do, or waits for the lock. *)
Definition thread_step (th : thread) (self : LRUCache)
  : option (thread * LRUCache) :=
  match current th with
  | None =>
      match pending th with
      | [] => None
      | o :: os =>
          Some ({| pending := os; current := Some (o, run_op o);
                   history := history th; crashed := crashed th |}, self)
      end
  | Some (o, Ret r) =>
      Some ({| pending := pending th; current := None;
               history := history th ++ [(o, r)]; crashed := crashed th |}, self)
  | Some (o, Throw e) =>
      Some ({| pending := []; current := None;
               history := history th; crashed := Some e |}, self)
  | Some (o, Do act k) =>
      match perform act self with
      | Some (r, self') =>
          Some ({| pending := pending th; current := Some (o, k r);
                   history := history th; crashed := crashed th |}, self')
      | None => None
      end
  end.

(** The object and the threads that share it. *)
Record config : Type := mkConfig {
  shared : LRUCache;
  threads : list thread
}.

Definition start (self : LRUCache) (programs : list (list op)) : config :=
  {| shared := self; threads := map spawn programs |}.

(** A step of the thread number [t]. *)
Definition step (t : nat) (cfg : config) : option config :=
  match threads cfg !! t with
  | Some th =>
      match thread_step th (shared cfg) with
      | Some (th', self') =>
          Some {| shared := self'; threads := <[t:=th']> (threads cfg) |}
      | None => None
      end
  | None => None
  end.

(** An execution: the threads step in the order of a schedule, which
    names at each point a thread that can step. *)
Fixpoint exec (schedule : list nat) (cfg : config) : option config :=
  match schedule with
  | [] => Some cfg
  | t :: ts =>
      match step t cfg with
      | Some cfg' => exec ts cfg'
      | None => None
      end
  end.

(** A serial order of calls: each entry is a thread, a call of it and
    what the call returned.  [log_of t] is what the order says of the
    thread [t]. *)
Definition log_of (t : nat) (log : list (nat * (op * pyval)))
  : list (op * pyval) :=
  (filter (fun e => e.1 = t) log).*2.

Definition log_ops (log : list (nat * (op * pyval))) : list op :=
  (log.*2).*1.

Definition log_results (log : list (nat * (op * pyval))) : list pyval :=
  (log.*2).*2.

End LRUCache.

Arguments LRUCache K : clear implicits.
Arguments Ret {K A} a.
Arguments Throw {K A} e.
Arguments Do {K A B} act k.
Arguments Return {K A} a self.
Arguments Raise {K A} e self.
Arguments Blocked {K A}.
Arguments action K : clear implicits.
Arguments prog K : clear implicits.
Arguments outcome K : clear implicits.
Arguments op K : clear implicits.
Arguments thread K : clear implicits.
Arguments config K : clear implicits.

(** ** Invariants *)

Section Invariants.
Context {K : Type} `{EqDecision K}.

(** What holds of a store between calls: positive capacity, lock free,
    every key stored once, and no more items than the capacity. *)
Record store_ok (self : LRUCache K) : Prop := mk_store_ok {
  ok_capacity : 0 < capacity self;
  ok_unlocked : lock self = false;
  ok_nodup : NoDup (cache self).*1;
  ok_size : occupancy self <= capacity self
}.

Definition is_acquire {B} (act : action K B) : bool :=
  match act with LockAcquire => true | _ => false end.

Definition is_release {B} (act : action K B) : bool :=
  match act with LockRelease => true | _ => false end.

(** A program that has ended. *)
Definition ended {A} (p : prog K A) : Prop :=
  match p with Do _ _ => False | _ => True end.

(** A program that does not touch the lock. *)
Fixpoint lock_free {A} (p : prog K A) : Prop :=
  match p with
  | Do act k =>
      is_acquire act = false /\ is_release act = false /\
      forall r, lock_free (k r)
  | _ => True
  end.

(** What is left of a method while its caller holds the lock: operations
    on the dictionary, then the release of the lock, and nothing after
    it. *)
Fixpoint critical {A} (p : prog K A) : Prop :=
  match p with
  | Do act k =>
      if is_acquire act then False
      else if is_release act then forall r, ended (k r)
      else forall r, critical (k r)
  | _ => False
  end.

(** [P] holds of the object now and after each operation of the program,
    run to its end. *)
Fixpoint always {A} (P : LRUCache K -> Prop) (p : prog K A) (self : LRUCache K)
  : Prop :=
  P self /\
  match p with
  | Do act k =>
      match perform act self with
      | Some (r, self') => always P (k r) self'
      | None => True
      end
  | _ => True
  end.

Definition within_capacity (c : Z) (self : LRUCache K) : Prop :=
  capacity self = c /\ occupancy self <= c.

(** A thread that does not hold the lock, against a serial order: it is
    between two calls, or about to take the lock, or about to return what
    the order says its call returns. *)
Definition outside_inv (log : list (nat * (op K * pyval)))
    (t : nat) (os : list (op K)) (th : thread K) : Prop :=
  crashed th = None /\
  match current th with
  | None =>
      os = (history th).*1 ++ pending th /\ log_of t log = history th
  | Some (o, p) =>
      os = (history th).*1 ++ o :: pending th /\
      ((p = run_op o /\ log_of t log = history th) \/
       (exists r, p = Ret r /\ log_of t log = history th ++ [(o, r)]))
  end.

(** The thread that holds the lock: the serial order ends with its call,
    and what is left of the call takes the object to the state at the end
    of the order. *)
Definition inside_inv (self sigma : LRUCache K)
    (log : list (nat * (op K * pyval)))
    (t : nat) (os : list (op K)) (th : thread K) : Prop :=
  crashed th = None /\
  exists o p r,
    current th = Some (o, p) /\
    os = (history th).*1 ++ o :: pending th /\
    critical p /\
    call p self = Return r sigma /\
    always (within_capacity (capacity sigma)) p self /\
    log_of t log = history th ++ [(o, r)].

(** A configuration against a serial order [log] that ends in the state
    [sigma]. *)
Definition config_inv (self0 : LRUCache K) (programs : list (list (op K)))
    (cfg : config K) (log : list (nat * (op K * pyval)))
    (sigma : LRUCache K) : Prop :=
  call (run_ops (log_ops log)) self0 = Return (log_results log) sigma /\
  store_ok sigma /\
  capacity sigma = capacity self0 /\
  length (threads cfg) = length programs /\
  Forall (fun e => (e.1 < length programs)%nat) log /\
  ((lock (shared cfg) = false /\ shared cfg = sigma /\
    forall t th os,
      threads cfg !! t = Some th -> programs !! t = Some os ->
      outside_inv log t os th) \/
   (exists t0 th0 os0,
      lock (shared cfg) = true /\
      threads cfg !! t0 = Some th0 /\ programs !! t0 = Some os0 /\
      inside_inv (shared cfg) sigma log t0 os0 th0 /\
      forall t th os,
        t ≠ t0 ->
        threads cfg !! t = Some th -> programs !! t = Some os ->
        outside_inv log t os th)).

End Invariants.

(** ** Measures on calls and on the recency order *)

Section Measures.
Context {K : Type} `{EqDecision K}.

Definition is_clear (o : op K) : bool :=
  match o with OpClear => true | _ => false end.

(** The keys that the calls of a list put, call by call. *)
Definition put_keys (os : list (op K)) : list K :=
  omap (fun o => match o with OpPut key _ => Some key | _ => None end) os.

(** The number of items used more recently than the item of [key]:
    those after it in the dictionary. *)
Fixpoint newer (key : K) (d : list (K * pyval)) : option nat :=
  match d with
  | [] => None
  | (k, _) :: d' => if decide (k = key) then Some (length d') else newer key d'
  end.

(** The dictionary that a call leaves, from the dictionary it finds,
    in a store of capacity [c] whose lock is free: what [get], [put] and
    [clear] do to [self.cache]; the other methods only read it. *)
Definition cache_after (o : op K) (c : Z) (d : list (K * pyval))
  : list (K * pyval) :=
  match o with
  | OpGet key =>
      match od_lookup key d with
      | Some v => od_remove key d ++ [(key, v)]
      | None => d
      end
  | OpPut key value =>
      if od_contains key d then od_remove key d ++ [(key, value)]
      else (if od_len d >=? c then tail d else d) ++ [(key, value)]
  | OpClear => []
  | _ => d
  end.

(** A thread that has made all its calls. *)
Definition finished (th : thread K) : Prop :=
  current th = None /\ pending th = [].

End Measures.

(** ** [test_concurrent_access] and the loops of [main] *)

(** [for i in range(n): cache.put(f'key{i}', f'value{i}')] and
    [for i in range(n): cache.get(f'key{i}')], as the calls they make. *)
Definition key_of (i : nat) : string := "key" +:+ pretty i.
Definition value_of (i : nat) : pyval := PyStr ("value" +:+ pretty i).

Definition put_loop (n : nat) : list (op string) :=
  map (fun i => OpPut (key_of i) (value_of i)) (seq 0 n).

Definition get_loop (n : nat) : list (op string) :=
  map (fun i => OpGet (key_of i)) (seq 0 n).

(** [test_concurrent_access()]: a store of capacity 2, a thread that runs
    the first loop and a thread that runs the second, both with [n = 5];
    [time.sleep] does not touch the store.  The function returns the store
    once both threads have ended (the two [join]); the stores it can
    return are the ones that some order of the steps of the threads ends
    in. *)
Definition test_concurrent_access (cache : LRUCache string) : Prop :=
  exists self0 schedule cfg,
    __init__ 2 = inr self0 /\
    exec schedule (start self0 [put_loop 5; get_loop 5]) = Some cfg /\
    Forall finished (threads cfg) /\
    shared cfg = cache.

(** ** Concrete stores and threads *)

(** A new store of capacity 2, and the store after [put(1, 'one')] and
    [put(2, 'two')], as in [main]. *)
Definition demo_empty : LRUCache Z :=
  {| capacity := 2; cache := []; lock := false |}.

Definition demo_full : LRUCache Z :=
  {| capacity := 2; cache := [(1, PyStr "one"); (2, PyStr "two")];
     lock := false |}.

Definition demo_calls : list (op Z) :=
  [OpPut 1 (PyStr "one"); OpPut 2 (PyStr "two"); OpGet 1;
   OpPut 3 (PyStr "three"); OpSize; OpIsFull; OpClear; OpPeek 3].

(** Two threads, one that puts and one that gets, as in
    [test_concurrent_access], and an order of their steps in which the
    second thread waits for the lock. *)
Definition demo_programs : list (list (op Z)) :=
  [[OpPut 1 (PyStr "one"); OpPut 2 (PyStr "two")]; [OpGet 1]].

Definition demo_schedule : list nat :=
  [0; 0; 0; 1; 0; 0; 0; 0; 1; 0; 0; 1; 1; 1; 1; 0; 1; 0; 0; 0; 0; 0; 0]%nat.

(** Where that execution ends. *)
Definition demo_final : config Z :=
  {| shared := demo_full;
     threads :=
       [ {| pending := []; current := None;
            history := [(OpPut 1 (PyStr "one"), PyNone);
                        (OpPut 2 (PyStr "two"), PyNone)];
            crashed := None |};
         {| pending := []; current := None;
            history := [(OpGet 1, PyStr "one")];
            crashed := None |} ] |}.

(** Runs a program on a store given in full: unfolds the methods and
    decides the comparisons of keys from the hypotheses. *)
Ltac run_calls :=
  unfold run_ops, run_op, put, get, peek, clear, get_size, is_full,
    with_lock, do, mbind, mret, prog_bind, prog_ret;
  simpl;
  repeat (first [ rewrite decide_True by congruence
                | rewrite decide_False by congruence
                | progress unfold od_pop, od_popitem_first, od_get ]; simpl).

(** ** Facts about ordered dictionaries *)

Section OrderedDictFacts.
Context {K : Type} `{EqDecision K}.
Implicit Types (d : list (K * pyval)) (k key : K) (v value : pyval).

Lemma od_contains_lookup key d :
  od_contains key d = bool_decide (is_Some (od_lookup key d)).
Proof.
  induction d as [|[k v] d IH]; cbn [od_contains od_lookup].
  - symmetry. apply bool_decide_eq_false. by intros [? ?].
  - destruct (decide (k = key)); [|done].
    symmetry. apply bool_decide_eq_true. eauto.
Qed.

Lemma od_contains_true key d :
  od_contains key d = true <-> exists v, od_lookup key d = Some v.
Proof. rewrite od_contains_lookup, bool_decide_eq_true. done. Qed.

Lemma od_contains_false key d :
  od_contains key d = false <-> od_lookup key d = None.
Proof.
  rewrite od_contains_lookup, bool_decide_eq_false.
  rewrite eq_None_not_Some. done.
Qed.

Lemma od_contains_keys key d : od_contains key d = true <-> key ∈ d.*1.
Proof.
  induction d as [|[k v] d IH]; simpl.
  - split; [done|]. intros Hin. inversion Hin.
  - rewrite elem_of_cons. destruct (decide (k = key)) as [->|Hne].
    + split; auto.
    + rewrite IH. split; [auto|]. by intros [->|?].
Qed.

Lemma od_lookup_None_keys key d : od_lookup key d = None <-> key ∉ d.*1.
Proof.
  rewrite <- od_contains_false, <- od_contains_keys.
  destruct (od_contains key d); naive_solver.
Qed.



Lemma od_lookup_app key d1 d2 :
  od_lookup key (d1 ++ d2) =
    match od_lookup key d1 with
    | Some v => Some v
    | None => od_lookup key d2
    end.
Proof.
  induction d1 as [|[k w] d1 IH]; simpl; [done|].
  by destruct (decide (k = key)).
Qed.

(** Assigning to a key that is not stored appends the item. *)
Lemma od_setitem_fresh key value d :
  od_lookup key d = None -> od_setitem key value d = d ++ [(key, value)].
Proof.
  induction d as [|[k w] d IH]; simpl; [done|].
  destruct (decide (k = key)); [done|]. intros Hl. by rewrite IH.
Qed.

(** Where the item of a stored key sits. *)
Lemma od_lookup_split key v d :
  od_lookup key d = Some v ->
  exists d1 d2,
    d = d1 ++ (key, v) :: d2 /\ od_lookup key d1 = None /\
    od_remove key d = d1 ++ d2.
Proof.
  induction d as [|[k w] d IH]; simpl; [done|].
  destruct (decide (k = key)) as [->|Hne].
  - intros [= ->]. by exists [], d.
  - intros Hl. destruct (IH Hl) as (d1 & d2 & -> & Hd1 & Hrm).
    exists ((k, w) :: d1), d2. simpl. rewrite decide_False by done.
    by rewrite Hrm.
Qed.


Lemma od_remove_keys_subseteq key d : (od_remove key d).*1 ⊆ d.*1.
Proof.
  induction d as [|[k w] d IH]; simpl; [done|].
  intros x. destruct (decide (k = key)); simpl.
  - intros Hx. by apply elem_of_cons; right.
  - rewrite !elem_of_cons. intros [->|Hx]; [by left|right; by apply IH].
Qed.

Lemma od_remove_NoDup key d : NoDup d.*1 -> NoDup (od_remove key d).*1.
Proof.
  induction d as [|[k w] d IH]; simpl; [done|].
  intros [Hk Hnd]%NoDup_cons. destruct (decide (k = key)); [done|].
  simpl. apply NoDup_cons. split; [|auto].
  intros Hin. apply Hk. by apply (od_remove_keys_subseteq key).
Qed.

Lemma od_lookup_remove_eq key d :
  NoDup d.*1 -> od_lookup key (od_remove key d) = None.
Proof.
  induction d as [|[k w] d IH]; simpl; [done|].
  intros [Hk Hnd]%NoDup_cons. destruct (decide (k = key)) as [->|Hne].
  - by apply od_lookup_None_keys.
  - simpl. rewrite decide_False by done. auto.
Qed.

Lemma od_lookup_remove_ne key k d :
  k ≠ key -> od_lookup k (od_remove key d) = od_lookup k d.
Proof.
  intros Hne. induction d as [|[k' w] d IH]; simpl; [done|].
  destruct (decide (k' = key)) as [->|Hne'].
  - by rewrite decide_False.
  - simpl. by rewrite IH.
Qed.

Lemma od_remove_length key d :
  od_contains key d = true -> S (length (od_remove key d)) = length d.
Proof.
  induction d as [|[k w] d IH]; simpl; [done|].
  destruct (decide (k = key)); [done|]. intros Hc. simpl. by rewrite IH.
Qed.

Lemma od_len_app d1 d2 : od_len (d1 ++ d2) = od_len d1 + od_len d2.
Proof. unfold od_len. rewrite length_app. lia. Qed.

Lemma od_len_nonneg d : 0 <= od_len d.
Proof. unfold od_len. lia. Qed.
End OrderedDictFacts.

(** ** The methods on an unlocked store *)

Section MethodEquations.
Context {K : Type} `{EqDecision K}.
Implicit Types (self : LRUCache K) (d : list (K * pyval)).
Implicit Types (k key : K) (v value : pyval).


Lemma release_acquire self :
  lock self = false -> set_lock false (set_lock true self) = self.
Proof. destruct self; simpl; by intros ->. Qed.


(** Running a sequence: the first part, then the second on what it
    leaves. *)
Lemma call_bind {A B} (p : prog K A) (f : A -> prog K B) self :
  call (bind p f) self =
    match call p self with
    | Return a self' => call (f a) self'
    | Raise e self' => Raise e self'
    | Blocked => Blocked
    end.
Proof.
  revert self. induction p as [a|e|C act k IH]; intros self; simpl; [done..|].
  destruct (perform act self) as [[r self']|]; [apply IH|done].
Qed.

Lemma get_unlocked key self :
  lock self = false ->
  call (get key) self =
    match od_lookup key (cache self) with
    | None => Return NOT_FOUND self
    | Some v =>
        Return v (set_cache (od_setitem key v (od_remove key (cache self))) self)
    end.
Proof.
  intros Hl. run_calls. rewrite Hl. simpl.
  destruct (od_contains key (cache self)) eqn:Hc; simpl.
  - apply od_contains_true in Hc as [v Hv]. unfold od_pop. rewrite Hv. simpl.
    f_equal. destruct self; simpl in *; by subst.
  - apply od_contains_false in Hc. rewrite Hc.
    f_equal. by apply release_acquire.
Qed.

Lemma put_unlocked key value self :
  lock self = false ->
  call (put key value) self =
    if od_contains key (cache self) then
      Return PyNone
        (set_cache (od_setitem key value (od_remove key (cache self))) self)
    else if od_len (cache self) >=? capacity self then
      match cache self with
      | [] => Raise KeyError self
      | _ :: d' => Return PyNone (set_cache (od_setitem key value d') self)
      end
    else Return PyNone (set_cache (od_setitem key value (cache self)) self).
Proof.
  intros Hl. run_calls. rewrite Hl. simpl.
  destruct (od_contains key (cache self)) eqn:Hc; simpl.
  - apply od_contains_true in Hc as [v Hv]. unfold od_pop. rewrite Hv. simpl.
    f_equal. destruct self; simpl in *; by subst.
  - destruct (od_len (cache self) >=? capacity self); simpl.
    + destruct self as [c [|kv d'] l]; simpl in *; subst; done.
    + f_equal. destruct self; simpl in *; by subst.
Qed.

Lemma peek_unlocked key self :
  lock self = false ->
  call (peek key) self = Return (od_get key NOT_FOUND (cache self)) self.
Proof.
  intros Hl. run_calls. rewrite Hl. simpl.
  f_equal. by apply release_acquire.
Qed.

Lemma clear_unlocked self :
  lock self = false -> call clear self = Return PyNone (set_cache [] self).
Proof.
  intros Hl. run_calls. rewrite Hl. simpl.
  f_equal. destruct self; simpl in *; by subst.
Qed.

Lemma get_size_unlocked self :
  lock self = false ->
  call get_size self = Return (PyInt (occupancy self)) self.
Proof.
  intros Hl. run_calls. rewrite Hl. simpl.
  f_equal. by apply release_acquire.
Qed.

Lemma is_full_unlocked self :
  lock self = false ->
  call is_full self = Return (PyBool (occupancy self >=? capacity self)) self.
Proof.
  intros Hl. run_calls. rewrite Hl. simpl.
  f_equal. by apply release_acquire.
Qed.

End MethodEquations.

(** ** The invariant of reachable stores *)

Section Invariant.
Context {K : Type} `{EqDecision K}.
Implicit Types (self : LRUCache K) (d : list (K * pyval)).
Implicit Types (k key : K) (v value : pyval) (o : op K).

Lemma init_ok c self : __init__ c = inr self -> store_ok self.
Proof.
  unfold __init__. destruct (c <=? 0) eqn:Hc; [done|].
  intros [= <-]. apply Z.leb_gt in Hc.
  split; simpl; [done|done|constructor|unfold occupancy, od_len; simpl; lia].
Qed.

Lemma set_cache_ok d self :
  store_ok self -> NoDup d.*1 -> od_len d <= capacity self ->
  store_ok (set_cache d self).
Proof. intros [? ? ? ?] ? ?. by split. Qed.

(** Popping a key and assigning to it puts the item at the end. *)
Lemma refresh_eq key value d :
  NoDup d.*1 ->
  od_setitem key value (od_remove key d) = od_remove key d ++ [(key, value)].
Proof. intros Hnd. apply od_setitem_fresh. by apply od_lookup_remove_eq. Qed.

Lemma append_NoDup key value d :
  NoDup d.*1 -> od_lookup key d = None -> NoDup (d ++ [(key, value)]).*1.
Proof.
  intros Hnd Hk. rewrite fmap_app. simpl. apply NoDup_app.
  split; [done|]. split; [|apply NoDup_singleton].
  intros x Hx ->%list_elem_of_singleton. by apply od_lookup_None_keys in Hk.
Qed.

Lemma get_ok key self :
  store_ok self ->
  exists r self',
    call (get key) self = Return r self' /\ store_ok self' /\
    capacity self' = capacity self.
Proof.
  intros Hok. destruct (Hok) as [Hc Hl Hnd Hsz].
  rewrite get_unlocked by done.
  destruct (od_lookup key (cache self)) as [v|] eqn:Hv; [|by eauto].
  eexists _, _. split; [done|]. split; [|done].
  rewrite refresh_eq by done. apply set_cache_ok; [done|..].
  - apply append_NoDup; [by apply od_remove_NoDup|by apply od_lookup_remove_eq].
  - assert (od_contains key (cache self) = true) as Hin
      by (apply od_contains_true; eauto).
    apply od_remove_length in Hin. unfold occupancy, od_len in *.
    rewrite length_app. simpl. lia.
Qed.

Lemma put_ok key value self :
  store_ok self ->
  exists self',
    call (put key value) self = Return PyNone self' /\ store_ok self' /\
    capacity self' = capacity self.
Proof.
  intros Hok. destruct (Hok) as [Hc Hl Hnd Hsz].
  rewrite put_unlocked by done.
  destruct (od_contains key (cache self)) eqn:Hin.
  - eexists. split; [done|]. split; [|done].
    rewrite refresh_eq by done. apply set_cache_ok; [done|..].
    + apply append_NoDup; [by apply od_remove_NoDup|by apply od_lookup_remove_eq].
    + apply od_remove_length in Hin. unfold occupancy, od_len in *.
      rewrite length_app. simpl. lia.
  - apply od_contains_false in Hin.
    rewrite Z.geb_leb.
    destruct (capacity self <=? od_len (cache self)) eqn:Hfull;
      [apply Z.leb_le in Hfull|apply Z.leb_gt in Hfull].
    + destruct (cache self) as [|[k0 v0] d'] eqn:Hd.
      * unfold od_len in Hfull. simpl in Hfull. lia.
      * simpl in Hin. destruct (decide (k0 = key)); [done|].
        simpl in Hnd. apply NoDup_cons in Hnd as [_ Hnd].
        eexists. split; [done|]. split; [|done].
        rewrite od_setitem_fresh by done. apply set_cache_ok; [done|..].
        -- by apply append_NoDup.
        -- unfold occupancy, od_len in *. rewrite Hd in Hsz.
           rewrite length_app. simpl in *. lia.
    + eexists. split; [done|]. split; [|done].
      rewrite od_setitem_fresh by done. apply set_cache_ok; [done|..].
      * by apply append_NoDup.
      * unfold occupancy, od_len in *. rewrite length_app. simpl. lia.
Qed.

Lemma run_op_ok o self :
  store_ok self ->
  exists r self',
    call (run_op o) self = Return r self' /\ store_ok self' /\
    capacity self' = capacity self.
Proof.
  intros Hok. destruct (Hok) as [Hc Hl Hnd Hsz]. destruct o; cbn [run_op].
  - by apply get_ok.
  - destruct (put_ok key value self Hok) as (self' & ? & ? & ?). eauto.
  - rewrite peek_unlocked by done. eauto.
  - rewrite clear_unlocked by done. eexists _, _. split; [done|].
    split; [|done]. apply set_cache_ok; [done|constructor|].
    unfold od_len. simpl. lia.
  - rewrite get_size_unlocked by done. eauto.
  - rewrite is_full_unlocked by done. eauto.
Qed.

Lemma reachable_ok self : reachable self -> store_ok self.
Proof.
  induction 1 as [c self Hinit|o r self self' _ IH Hrun|o e self self' _ IH Hrun].
  - by eapply init_ok.
  - destruct (run_op_ok o self IH) as (r' & s' & Hrun' & Hok' & _).
    rewrite Hrun in Hrun'. by injection Hrun' as -> ->.
  - destruct (run_op_ok o self IH) as (r' & s' & Hrun' & _).
    by rewrite Hrun in Hrun'.
Qed.
End Invariant.

(** ** The specification of [put] and [get] *)

Section PutGet.
Context {K : Type} `{EqDecision K}.
Implicit Types (self : LRUCache K) (d : list (K * pyval)).
Implicit Types (k key : K) (v value : pyval).

Lemma mru_item_snoc d key value : mru_item (d ++ [(key, value)]) = Some (key, value).
Proof. unfold mru_item. apply last_snoc. Qed.

(** [put] of a key that is not stored, below capacity and at capacity. *)
Lemma put_absent_unlocked key value self :
  store_ok self -> od_contains key (cache self) = false ->
  call (put key value) self =
    Return PyNone
      (set_cache
         ((if od_len (cache self) >=? capacity self
           then tail (cache self) else cache self) ++ [(key, value)]) self).
Proof.
  intros [Hc Hl Hnd Hsz] Habs. rewrite put_unlocked, Habs by done.
  apply od_contains_false in Habs.
  rewrite Z.geb_leb.
  destruct (capacity self <=? od_len (cache self)) eqn:Hfull;
    [apply Z.leb_le in Hfull|by rewrite od_setitem_fresh].
  destruct (cache self) as [|[k0 v0] d'] eqn:Hd.
  - unfold od_len in Hfull. simpl in Hfull. lia.
  - simpl in *. destruct (decide (k0 = key)); [done|].
    by rewrite od_setitem_fresh.
Qed.

(** [put] of a key that is stored. *)
Lemma put_present_unlocked key value self :
  store_ok self -> od_contains key (cache self) = true ->
  call (put key value) self =
    Return PyNone (set_cache (od_remove key (cache self) ++ [(key, value)]) self).
Proof.
  intros [Hc Hl Hnd Hsz] Hin. rewrite put_unlocked, Hin by done.
  by rewrite refresh_eq.
Qed.

(** [get] of a key that is stored. *)
Lemma get_present_unlocked key v self :
  store_ok self -> od_lookup key (cache self) = Some v ->
  call (get key) self =
    Return v (set_cache (od_remove key (cache self) ++ [(key, v)]) self).
Proof.
  intros [Hc Hl Hnd Hsz] Hv. rewrite get_unlocked, Hv by done.
  by rewrite refresh_eq.
Qed.

(** C1.  On a reachable store, [put(key, value)] of a key that is not
    stored returns [None] and: below capacity, appends the item at the
    most-recently-used end and the occupancy grows by one; at capacity,
    drops the first (least recently used) item, whose key is then no
    longer stored, appends the new item at the most-recently-used end,
    and the occupancy is still the capacity. *)
Theorem put_absent_by_occupancy self key value :
  reachable self ->
  od_contains key (cache self) = false ->
  (occupancy self < capacity self ->
     exists self',
       call (put key value) self = Return PyNone self' /\
       cache self' = cache self ++ [(key, value)] /\
       mru_item (cache self') = Some (key, value) /\
       capacity self' = capacity self /\
       occupancy self' = occupancy self + 1) /\
  (occupancy self = capacity self ->
     exists lru rest self',
       lru_item (cache self) = Some lru /\
       cache self = lru :: rest /\
       call (put key value) self = Return PyNone self' /\
       cache self' = rest ++ [(key, value)] /\
       od_contains lru.1 (cache self') = false /\
       mru_item (cache self') = Some (key, value) /\
       capacity self' = capacity self /\
       occupancy self' = capacity self).
Proof.
  intros Hok%reachable_ok Habs.
  pose proof (put_absent_unlocked key value self Hok Habs) as Hput.
  destruct (Hok) as [Hc Hl Hnd Hsz]. unfold occupancy in *. split.
  - intros Hlt. rewrite Z.geb_leb in Hput.
    rewrite (proj2 (Z.leb_gt _ _)) in Hput by lia.
    eexists. split; [exact Hput|]. simpl.
    split; [done|]. split; [apply mru_item_snoc|]. split; [done|].
    rewrite od_len_app. unfold od_len. simpl. lia.
  - intros Heq. rewrite Z.geb_leb in Hput.
    rewrite (proj2 (Z.leb_le _ _)) in Hput by lia.
    destruct (cache self) as [|[k0 v0] rest] eqn:Hd.
    { unfold od_len in Heq. simpl in Heq. lia. }
    exists (k0, v0), rest. eexists. split; [done|]. split; [done|].
    split; [exact Hput|]. simpl.
    apply NoDup_cons in Hnd as [Hk0 Hnd].
    simpl in Habs. destruct (decide (k0 = key)) as [|Hne]; [done|].
    split; [done|]. split.
    + apply od_contains_false. simpl in *. rewrite od_lookup_app.
      apply od_lookup_None_keys in Hk0. rewrite Hk0. simpl.
      by rewrite decide_False by done.
    + split; [apply mru_item_snoc|]. split; [done|].
      rewrite <- Heq, od_len_app. unfold od_len. simpl. lia.
Qed.

(** C3.  On a reachable store, [get(key)] of a key that is not stored
    returns [-1] and leaves the store as it is; [get(key)] of a stored
    key returns its value and moves its item to the most-recently-used
    end, the other items keeping their order. *)
Theorem get_absent_and_present self key :
  reachable self ->
  (od_contains key (cache self) = false ->
     call (get key) self = Return (PyInt (-1)) self) /\
  (forall v, od_lookup key (cache self) = Some v ->
     exists d1 d2 self',
       cache self = d1 ++ (key, v) :: d2 /\
       call (get key) self = Return v self' /\
       self' = set_cache (d1 ++ d2 ++ [(key, v)]) self /\
       mru_item (cache self') = Some (key, v)).
Proof.
  intros Hok%reachable_ok. split.
  - intros Habs%od_contains_false.
    rewrite get_unlocked by apply Hok. by rewrite Habs.
  - intros v Hv. rewrite (get_present_unlocked key v self Hok Hv).
    destruct (od_lookup_split key v _ Hv) as (d1 & d2 & Hd & _ & Hrm).
    exists d1, d2. eexists. split; [done|]. split; [done|].
    rewrite Hrm, <- app_assoc. split; [done|]. simpl.
    rewrite app_assoc. apply mru_item_snoc.
Qed.

(** C6.  On a reachable store, full or not, [put(key, value)] of a
    stored key replaces its value, moves its item to the
    most-recently-used end, removes no other key and keeps the
    occupancy; and after [put(key, v1); put(key, v2)] the second call has
    not changed the occupancy, which is the one before both calls when
    the key was stored, and [get(key)] returns [v2]. *)
Theorem put_present_updates self key value :
  reachable self ->
  (forall v0, od_lookup key (cache self) = Some v0 ->
     exists d1 d2 self',
       cache self = d1 ++ (key, v0) :: d2 /\
       call (put key value) self = Return PyNone self' /\
       self' = set_cache (d1 ++ d2 ++ [(key, value)]) self /\
       od_lookup key (cache self') = Some value /\
       mru_item (cache self') = Some (key, value) /\
       (forall k, k ≠ key -> od_lookup k (cache self') = od_lookup k (cache self)) /\
       occupancy self' = occupancy self) /\
  (forall v1 v2,
     exists self1 self2 self3,
       call (put key v1) self = Return PyNone self1 /\
       call (put key v2) self1 = Return PyNone self2 /\
       occupancy self2 = occupancy self1 /\
       (od_contains key (cache self) = true ->
        occupancy self2 = occupancy self) /\
       call (get key) self2 = Return v2 self3).
Proof.
  intros Hr.
  assert (forall s w v0, store_ok s -> od_lookup key (cache s) = Some v0 ->
     exists d1 d2 s',
       cache s = d1 ++ (key, v0) :: d2 /\
       call (put key w) s = Return PyNone s' /\
       s' = set_cache (d1 ++ d2 ++ [(key, w)]) s /\
       od_lookup key (cache s') = Some w /\
       mru_item (cache s') = Some (key, w) /\
       (forall k, k ≠ key -> od_lookup k (cache s') = od_lookup k (cache s)) /\
       occupancy s' = occupancy s) as Hpresent.
  { intros s w v0 Hok Hv0.
    assert (od_contains key (cache s) = true) as Hin
      by (apply od_contains_true; eauto).
    rewrite (put_present_unlocked key w s Hok Hin).
    destruct (od_lookup_split key v0 _ Hv0) as (d1 & d2 & Hd & Hd1 & Hrm).
    pose proof (ok_nodup s Hok) as Hnd.
    pose proof (od_lookup_remove_eq key _ Hnd) as Hgone.
    exists d1, d2. eexists. split; [done|]. split; [done|].
    rewrite Hrm, <- app_assoc. split; [done|]. simpl.
    rewrite Hrm in Hgone.
    split; [|split; [|split]].
    - rewrite app_assoc, od_lookup_app, Hgone. simpl. by rewrite decide_True.
    - rewrite app_assoc. apply mru_item_snoc.
    - intros k Hk. rewrite app_assoc, <- Hrm, od_lookup_app.
      rewrite od_lookup_remove_ne by done.
      destruct (od_lookup k (cache s)); [done|]. simpl.
      by rewrite decide_False.
    - unfold occupancy, od_len. simpl. rewrite Hd.
      repeat (rewrite length_app; simpl). lia. }
  split.
  - intros v0 Hv0. apply Hpresent; [by apply reachable_ok|done].
  - intros v1 v2.
    destruct (put_ok key v1 self (reachable_ok _ Hr)) as (self1 & Hput1 & Hok1 & _).
    assert (od_lookup key (cache self1) = Some v1) as Hv1.
    { pose proof (reachable_ok _ Hr) as Hok.
      destruct (od_contains key (cache self)) eqn:Hin.
      - rewrite (put_present_unlocked key v1 self Hok Hin) in Hput1.
        injection Hput1 as <-. simpl. rewrite od_lookup_app.
        rewrite od_lookup_remove_eq by apply Hok. simpl. by rewrite decide_True.
      - rewrite (put_absent_unlocked key v1 self Hok Hin) in Hput1.
        injection Hput1 as <-. simpl. rewrite od_lookup_app.
        apply od_contains_false in Hin.
        assert (od_lookup key
                  (if od_len (cache self) >=? capacity self
                   then tail (cache self) else cache self) = None) as ->.
        { destruct (od_len (cache self) >=? capacity self); [|done].
          destruct (cache self) as [|[k0 w0] d']; [done|]. simpl in *.
          by destruct (decide (k0 = key)). }
        simpl. by rewrite decide_True. }
    destruct (Hpresent self1 v2 v1 Hok1 Hv1)
      as (d1 & d2 & self2 & _ & Hput2 & Heq2 & Hv2 & _ & _ & Hocc).
    assert (store_ok self2) as Hok2.
    { destruct (put_ok key v2 self1 Hok1) as (s2 & Hs2 & Hok2 & _).
      rewrite Hput2 in Hs2. by injection Hs2 as ->. }
    exists self1, self2. eexists. split; [done|]. split; [done|].
    split; [done|]. split; [|by apply get_present_unlocked].
    intros [v0 Hv0]%od_contains_true.
    destruct (Hpresent self v1 v0 (reachable_ok _ Hr) Hv0)
      as (? & ? & s1 & _ & Hput1' & _ & _ & _ & _ & Hocc1).
    rewrite Hput1 in Hput1'. injection Hput1' as <-. congruence.
Qed.
End PutGet.

(** ** What [put] leaves alone, and what no call can break *)

Section Frame.
Context {K : Type} `{EqDecision K}.
Implicit Types (self : LRUCache K) (d : list (K * pyval)).
Implicit Types (k key : K) (v value : pyval) (o : op K).

(** Another key after [put]: gone when it was the first item and the
    call evicts, as before otherwise. *)
Lemma put_lookup_other key value k' self self' :
  store_ok self -> k' ≠ key ->
  call (put key value) self = Return PyNone self' ->
  od_lookup k' (cache self') =
    match lru_item (cache self) with
    | Some (k0, _) =>
        if put_evicts key self && bool_decide (k0 = k') then None
        else od_lookup k' (cache self)
    | None => od_lookup k' (cache self)
    end.
Proof.
  intros Hok Hne Hput. unfold put_evicts.
  assert (forall d, od_lookup k' (d ++ [(key, value)]) = od_lookup k' d) as Happ.
  { intros d. rewrite od_lookup_app. destruct (od_lookup k' d); [done|].
    simpl. rewrite decide_False; [done|congruence]. }
  destruct (od_contains key (cache self)) eqn:Hin; simpl.
  - rewrite (put_present_unlocked key value self Hok Hin) in Hput.
    injection Hput as <-. simpl. rewrite Happ, od_lookup_remove_ne by done.
    by destruct (lru_item (cache self)) as [[? ?]|].
  - rewrite (put_absent_unlocked key value self Hok Hin) in Hput.
    injection Hput as <-. simpl. rewrite Happ.
    destruct (od_len (cache self) >=? capacity self); simpl.
    + pose proof (ok_nodup self Hok) as Hnd.
      destruct (cache self) as [|[k0 v0] rest]; simpl in *; [done|].
      apply NoDup_cons in Hnd as [Hk0 _].
      destruct (decide (k0 = k')) as [->|Hk].
      * rewrite bool_decide_eq_true_2 by done. by apply od_lookup_None_keys.
      * by rewrite bool_decide_eq_false_2.
    + by destruct (lru_item (cache self)) as [[? ?]|].
Qed.

(** C10.  On a reachable store, [put(key, value)] returns [None], and
    for another key [k']: a value stored under [k'] afterwards is the one
    stored before; [k'] is removed exactly when [key] was not stored, the
    occupancy was the capacity and [k'] was the least recently used key;
    and two stored keys that are both gone afterwards are the same key. *)
Theorem put_frame self key value k' :
  reachable self -> k' ≠ key ->
  exists self',
    call (put key value) self = Return PyNone self' /\
    (forall v', od_lookup k' (cache self') = Some v' ->
       od_lookup k' (cache self) = Some v') /\
    (forall v', od_lookup k' (cache self) = Some v' ->
       (od_lookup k' (cache self') = None <->
          od_contains key (cache self) = false /\
          occupancy self = capacity self /\
          lru_item (cache self) = Some (k', v')) /\
       (od_lookup k' (cache self') = None \/
        od_lookup k' (cache self') = Some v')) /\
    (forall k1 k2,
       is_Some (od_lookup k1 (cache self)) ->
       is_Some (od_lookup k2 (cache self)) ->
       od_lookup k1 (cache self') = None ->
       od_lookup k2 (cache self') = None ->
       k1 = k2).
Proof.
  intros Hok%reachable_ok Hne.
  destruct (put_ok key value self Hok) as (self' & Hput & Hok' & _).
  exists self'. split; [done|].
  pose proof (fun k Hk => put_lookup_other key value k self self' Hok Hk Hput)
    as Hother.
  assert (put_evicts key self = true <->
          od_contains key (cache self) = false /\
          occupancy self = capacity self) as Hev.
  { unfold put_evicts, occupancy. rewrite andb_true_iff, negb_true_iff.
    rewrite Z.geb_leb, Z.leb_le. pose proof (ok_size self Hok) as Hsz.
    unfold occupancy in Hsz. intuition lia. }
  split; [|split].
  - intros v'. rewrite Hother by done.
    destruct (lru_item (cache self)) as [[k0 v0]|]; [|done].
    by destruct (put_evicts key self && bool_decide (k0 = k')).
  - intros v' Hv'. rewrite Hother by done.
    destruct (lru_item (cache self)) as [[k0 v0]|] eqn:Hlru.
    + destruct (put_evicts key self) eqn:Hevb; simpl.
      * destruct (decide (k0 = k')) as [->|Hk].
        -- rewrite bool_decide_eq_true_2 by done. split; [|by left].
           split; [|done]. intros _. destruct Hev as [Hev _].
           destruct (Hev eq_refl) as [? ?]. split; [done|]. split; [done|].
           unfold lru_item in Hlru. destruct (cache self) as [|[k1 v1] d];
             simpl in *; [done|]. injection Hlru as -> ->.
           rewrite decide_True in Hv' by done. by injection Hv' as ->.
        -- rewrite bool_decide_eq_false_2 by done. rewrite Hv'.
           split; [|by right]. split; [done|]. intros (_ & _ & [=]). done.
      * rewrite Hv'. split; [|by right]. split; [done|].
        intros (Ha & Hb & _). destruct Hev as [_ Hev].
        discriminate (Hev (conj Ha Hb)).
    + rewrite Hv'. split; [|by right]. split; [done|]. by intros (_ & _ & ?).
  - intros k1 k2 [v1 Hv1] [v2 Hv2] Hg1 Hg2.
    assert (forall k v, od_lookup k (cache self) = Some v ->
              od_lookup k (cache self') = None ->
              exists v0, lru_item (cache self) = Some (k, v0)) as Hgone.
    { intros k v Hv Hg. destruct (decide (k = key)) as [->|Hk].
      - exfalso. assert (od_contains key (cache self) = true) as Hin
          by (apply od_contains_true; eauto).
        rewrite (put_present_unlocked key value self Hok Hin) in Hput.
        injection Hput as <-. simpl in Hg. rewrite od_lookup_app in Hg.
        rewrite od_lookup_remove_eq in Hg by apply Hok. simpl in Hg.
        by rewrite decide_True in Hg.
      - rewrite Hother in Hg by done.
        destruct (lru_item (cache self)) as [[k0 v0]|]; [|congruence].
        destruct (put_evicts key self && bool_decide (k0 = k)) eqn:Hb;
          [|congruence].
        apply andb_true_iff in Hb as [_ Hb%bool_decide_eq_true]. subst. eauto. }
    destruct (Hgone k1 v1 Hv1 Hg1) as [w1 Hw1].
    destruct (Hgone k2 v2 Hv2 Hg2) as [w2 Hw2]. congruence.
Qed.

Lemma run_ops_ok (os : list (op K)) self :
  store_ok self ->
  exists rs self',
    call (run_ops os) self = Return rs self' /\ store_ok self' /\
    capacity self' = capacity self.
Proof.
  revert self. induction os as [|o os IH]; intros self Hok; simpl.
  - by exists [], self.
  - unfold mbind, mret, prog_bind, prog_ret. rewrite !call_bind.
    destruct (run_op_ok o self Hok) as (r & self1 & -> & Hok1 & Hc1).
    rewrite call_bind.
    destruct (IH self1 Hok1) as (rs & self2 & -> & Hok2 & Hc2).
    exists (r :: rs), self2. split; [done|]. split; [done|congruence].
Qed.

Lemma size_after_calls c (os : list (op K)) :
  1 <= c ->
  exists self0,
    __init__ c = inr self0 /\
    exists rs self sz,
      call (run_ops os) self0 = Return rs self /\
      capacity self = c /\
      call get_size self = Return (PyInt sz) self /\
      0 <= sz <= c.
Proof.
  intros Hc. unfold __init__. rewrite (proj2 (Z.leb_gt _ _)) by lia.
  eexists. split; [done|].
  set (self0 := {| capacity := c; cache := []; lock := false |}).
  assert (store_ok self0) as Hok0 by (by apply (init_ok c); unfold __init__;
    rewrite (proj2 (Z.leb_gt _ _)) by lia).
  destruct (run_ops_ok os self0 Hok0) as (rs & self & Hrun & Hok & Hcap).
  exists rs, self, (occupancy self). split; [done|]. split; [done|].
  split; [apply get_size_unlocked, Hok|].
  pose proof (ok_size self Hok). pose proof (od_len_nonneg (cache self)).
  unfold occupancy in *. simpl in *. lia.
Qed.

(** C2.  For a capacity [c >= 1] and a list of calls of [get], [put],
    [peek], [clear], [get_size] and [is_full] on a new store, every
    prefix of the list runs to the end, each call returning, and
    [get_size()] then returns a number between [0] and [c]; the same,
    in particular, for a list of [put] calls. *)
Theorem size_within_capacity c (os : list (op K)) :
  1 <= c ->
  exists self0,
    __init__ c = inr self0 /\
    (forall n, exists rs self sz,
       call (run_ops (take n os)) self0 = Return rs self /\
       capacity self = c /\
       call get_size self = Return (PyInt sz) self /\
       0 <= sz <= c) /\
    (forall (items : list (K * pyval)) n, exists rs self sz,
       call (run_ops (take n (map (fun kv => OpPut kv.1 kv.2) items))) self0
         = Return rs self /\
       capacity self = c /\
       call get_size self = Return (PyInt sz) self /\
       0 <= sz <= c).
Proof.
  intros Hc.
  destruct (size_after_calls c [] Hc) as (self0 & Hinit & _).
  exists self0. split; [done|]. split.
  - intros n. destruct (size_after_calls c (take n os) Hc) as (s & Hs & Hrun).
    rewrite Hinit in Hs. by injection Hs as <-.
  - intros items n.
    destruct (size_after_calls c
                (take n (map (fun kv => OpPut kv.1 kv.2) items)) Hc)
      as (s & Hs & Hrun).
    rewrite Hinit in Hs. by injection Hs as <-.
Qed.

(** C8.  The constructor raises, with [ValueError], exactly for a
    capacity [<= 0], and gives a store otherwise; on a reachable store
    every method returns: [put] and [clear] return [None], [get_size] a
    number, [is_full] a boolean, and [get] and [peek] of a key that is
    not stored return [-1]. *)
Theorem only_constructor_fails :
  (forall c, (exists e, @__init__ K c = inl e) <-> c <= 0) /\
  (forall c, c <= 0 ->
     @__init__ K c = inl (ValueError "Capacity must be positive")) /\
  (forall c, 0 < c -> exists self, @__init__ K c = inr self) /\
  (forall self, reachable self ->
     (forall key value, exists self', call (put key value) self = Return PyNone self') /\
     (exists self', call clear self = Return PyNone self') /\
     (exists n, call get_size self = Return (PyInt n) self) /\
     (exists b, call is_full self = Return (PyBool b) self) /\
     (forall key, exists r self',
        call (get key) self = Return r self' /\
        (od_contains key (cache self) = false -> r = PyInt (-1))) /\
     (forall key, exists r,
        call (peek key) self = Return r self /\
        (od_contains key (cache self) = false -> r = PyInt (-1)))).
Proof.
  split; [|split; [|split]].
  - intros c. unfold __init__. destruct (c <=? 0) eqn:Hc.
    + apply Z.leb_le in Hc. split; [done|eauto].
    + apply Z.leb_gt in Hc. split; [by intros [e ?]|lia].
  - intros c Hc. unfold __init__. by rewrite (proj2 (Z.leb_le _ _)).
  - intros c Hc. unfold __init__. rewrite (proj2 (Z.leb_gt _ _)) by done. eauto.
  - intros self Hok%reachable_ok. pose proof (ok_unlocked self Hok) as Hl.
    split; [|split; [|split; [|split; [|split]]]].
    + intros key value.
      destruct (put_ok key value self Hok) as (self' & ? & _). eauto.
    + rewrite clear_unlocked by done. eauto.
    + rewrite get_size_unlocked by done. eauto.
    + rewrite is_full_unlocked by done. eauto.
    + intros key. rewrite get_unlocked by done.
      destruct (od_lookup key (cache self)) as [v|] eqn:Hv.
      * eexists _, _. split; [done|]. intros Habs%od_contains_false. congruence.
      * eauto.
    + intros key. rewrite peek_unlocked by done. eexists. split; [done|].
      intros Habs%od_contains_false. unfold od_get. by rewrite Habs.
Qed.
End Frame.

(** ** [peek], and the scenarios on a store of capacity 2 *)

(** C4.  On a store of capacity 2 and for distinct keys,
    [put(k1); put(k2); get(k1)] leaves [k2] before [k1] in the recency
    order, and [put(k3)] then removes [k2] and keeps [k1].  With the keys
    1, 2, 3 and the values ['one'], ['two'], ['three'], [get(1)] returns
    ['one'], and after [put(3, 'three')], [get(2)] returns [-1] and
    [get(3)] returns ['three']. *)
Theorem recency_refresh :
  (forall (K : Type) (HK : EqDecision K) (k1 k2 k3 : K) (v1 v2 v3 : pyval),
     k1 ≠ k2 -> k1 ≠ k3 -> k2 ≠ k3 ->
     exists self0 self3 self4,
       __init__ 2 = inr self0 /\
       call (run_ops [OpPut k1 v1; OpPut k2 v2; OpGet k1]) self0
         = Return [PyNone; PyNone; v1] self3 /\
       cache self3 = [(k2, v2); (k1, v1)] /\
       call (put k3 v3) self3 = Return PyNone self4 /\
       cache self4 = [(k1, v1); (k3, v3)] /\
       od_contains k2 (cache self4) = false /\
       od_contains k1 (cache self4) = true) /\
  (exists self0 self3 self4 self6 : LRUCache Z,
     __init__ 2 = inr self0 /\
     call (run_ops [OpPut 1 (PyStr "one"); OpPut 2 (PyStr "two"); OpGet 1]) self0
       = Return [PyNone; PyNone; PyStr "one"] self3 /\
     od_contains 2 (cache self3) = true /\
     call (put 3 (PyStr "three")) self3 = Return PyNone self4 /\
     od_contains 2 (cache self4) = false /\
     call (run_ops [OpGet 2; OpGet 3]) self4
       = Return [PyInt (-1); PyStr "three"] self6).
Proof.
  split.
  - intros K HK k1 k2 k3 v1 v2 v3 H12 H13 H23.
    eexists _, _, _. split; [reflexivity|].
    split; [run_calls; reflexivity|]. split; [reflexivity|].
    split; [run_calls; reflexivity|]. split; [reflexivity|].
    split; run_calls; reflexivity.
  - eexists _, _, _, _. split; [reflexivity|].
    split; [reflexivity|]. split; [reflexivity|].
    split; [reflexivity|]. split; reflexivity.
Qed.

(** C5.  On a reachable store, [peek(key)] returns what [get(key)]
    returns, the stored value or [-1], and leaves the store as it is.  On
    a store of capacity 2 and for distinct keys,
    [put(k1); put(k2); peek(k1)] leaves [k1] first in the recency order, and
    [put(k3)] then removes [k1]. *)
Theorem peek_reads_without_refresh :
  (forall (K : Type) (HK : EqDecision K) (self : LRUCache K) (key : K),
     reachable self ->
     exists r self',
       call (peek key) self = Return r self /\
       call (get key) self = Return r self' /\
       r = od_get key (PyInt (-1)) (cache self)) /\
  (forall (K : Type) (HK : EqDecision K) (k1 k2 k3 : K) (v1 v2 v3 : pyval),
     k1 ≠ k2 -> k1 ≠ k3 -> k2 ≠ k3 ->
     exists self0 self3 self4,
       __init__ 2 = inr self0 /\
       call (run_ops [OpPut k1 v1; OpPut k2 v2; OpPeek k1]) self0
         = Return [PyNone; PyNone; v1] self3 /\
       cache self3 = [(k1, v1); (k2, v2)] /\
       call (put k3 v3) self3 = Return PyNone self4 /\
       cache self4 = [(k2, v2); (k3, v3)] /\
       od_contains k1 (cache self4) = false /\
       od_contains k2 (cache self4) = true).
Proof.
  split.
  - intros K HK self key Hok%reachable_ok.
    pose proof (ok_unlocked self Hok) as Hl.
    rewrite peek_unlocked, get_unlocked by done. unfold od_get, NOT_FOUND.
    destruct (od_lookup key (cache self)) as [v|]; eauto.
  - intros K HK k1 k2 k3 v1 v2 v3 H12 H13 H23.
    eexists _, _, _. split; [reflexivity|].
    split; [run_calls; reflexivity|]. split; [reflexivity|].
    split; [run_calls; reflexivity|]. split; [reflexivity|].
    split; run_calls; reflexivity.
Qed.

(** C9.  A key stored with the value [-1] and a key that is not stored
    cannot be told apart by what [get] and [peek] return: both return
    [-1] in both cases. *)
Theorem sentinel_conflation :
  exists (key : Z) (s_present s_absent : LRUCache Z),
    reachable s_present /\ reachable s_absent /\
    od_lookup key (cache s_present) = Some (PyInt (-1)) /\
    od_contains key (cache s_present) = true /\
    od_contains key (cache s_absent) = false /\
    (exists r s1 s2,
       call (get key) s_present = Return r s1 /\
       call (get key) s_absent = Return r s2 /\ r = PyInt (-1)) /\
    (exists r,
       call (peek key) s_present = Return r s_present /\
       call (peek key) s_absent = Return r s_absent /\ r = PyInt (-1)).
Proof.
  exists 7.
  exists {| capacity := 1; cache := [(7, PyInt (-1))]; lock := false |}.
  exists {| capacity := 1; cache := []; lock := false |}.
  assert (reachable {| capacity := 1; cache := @nil (Z * pyval); lock := false |})
    as Hinit by (by apply (reachable_init 1)).
  split.
  { by apply (reachable_return (OpPut 7 (PyInt (-1))) PyNone _ _ Hinit). }
  split; [done|]. split; [done|]. split; [done|]. split; [done|].
  split; [by eexists _, _, _|by eexists].
Qed.

(** ** Threads: every execution is a serial one *)

Section Threads.
Context {K : Type} `{EqDecision K}.
Implicit Types (self sigma : LRUCache K) (d : list (K * pyval)).
Implicit Types (key : K) (v value : pyval) (o : op K).
Implicit Types (th : thread K) (cfg : config K).
Implicit Types (log : list (nat * (op K * pyval))).

(** *** The shape of the methods *)

Lemma lock_free_bind {A B} (p : prog K A) (f : A -> prog K B) :
  lock_free p -> (forall a, lock_free (f a)) -> lock_free (bind p f).
Proof.
  intros Hp Hf. induction p as [a|e|C act k IH]; simpl in *; [done..|].
  destruct Hp as (Ha & Hr & Hk). repeat split; [done..|].
  intros r. by apply IH.
Qed.

Lemma lock_free_do {B} (act : action K B) :
  is_acquire act = false -> is_release act = false -> lock_free (do act).
Proof. intros Ha Hr. simpl. repeat split; [done..|]. by intros [e|b]. Qed.

Lemma critical_try_finally {A} (body : prog K A) :
  lock_free body -> critical (try_finally body (do LockRelease)).
Proof.
  induction body as [a|e|C act k IH]; simpl.
  - intros _ [e|[]]; done.
  - intros _ [e'|[]]; done.
  - intros (-> & -> & Hk) r. by apply IH.
Qed.

Lemma with_lock_shape {A} (body : prog K A) :
  exists k,
    with_lock body = Do LockAcquire k /\
    k (inr tt) = try_finally body (do LockRelease).
Proof. by eexists. Qed.

Lemma run_op_body o :
  exists body, run_op o = with_lock body /\ lock_free body.
Proof.
  destruct o; eexists; (split; [reflexivity|]);
    unfold mbind, mret, prog_bind, prog_ret;
    repeat first
      [ apply lock_free_bind; [|intros ?]
      | apply lock_free_do; reflexivity
      | match goal with |- lock_free (if ?b then _ else _) => destruct b end
      | exact I ].
Qed.

(** A method takes the lock first, and what follows is a critical
    section. *)
Lemma run_op_shape o :
  exists k, run_op o = Do LockAcquire k /\ critical (k (inr tt)).
Proof.
  destruct (run_op_body o) as (body & -> & Hfree).
  destruct (with_lock_shape body) as (k & -> & Hk).
  exists k. split; [done|]. rewrite Hk. by apply critical_try_finally.
Qed.

(** *** The occupancy inside a critical section *)

Lemma od_setitem_length key value d :
  (length (od_setitem key value d) <= S (length d))%nat.
Proof.
  induction d as [|[k0 v0] d IH]; simpl; [lia|].
  destruct (decide (k0 = key)); simpl; lia.
Qed.

(** From a store that is in order, no operation of a call takes the
    occupancy above the capacity. *)
Lemma run_op_within o sigma :
  store_ok sigma ->
  always (within_capacity (capacity sigma)) (run_op o) sigma.
Proof.
  intros [Hc Hl Hnd Hsz].
  assert (forall self, within_capacity (capacity sigma) self <->
            capacity self = capacity sigma /\
            Z.of_nat (length (cache self)) <= capacity sigma) as Hw by done.
  unfold occupancy, od_len in Hsz.
  destruct o; run_calls; rewrite Hl; simpl.
  - destruct (od_contains key (cache sigma)) eqn:Hin; simpl;
      [|by rewrite !Hw].
    pose proof (od_remove_length key _ Hin) as Hrm.
    apply od_contains_true in Hin as [v Hv]. unfold od_pop. rewrite Hv. simpl.
    pose proof (od_setitem_length key v (od_remove key (cache sigma))).
    rewrite !Hw. simpl. repeat split; lia.
  - destruct (od_contains key (cache sigma)) eqn:Hin; simpl.
    + pose proof (od_remove_length key _ Hin) as Hrm.
      apply od_contains_true in Hin as [v Hv]. unfold od_pop. rewrite Hv. simpl.
      pose proof (od_setitem_length key value (od_remove key (cache sigma))).
      rewrite !Hw. simpl. repeat split; lia.
    + rewrite Z.geb_leb.
      destruct (capacity sigma <=? od_len (cache sigma)) eqn:Hfull;
        [apply Z.leb_le in Hfull|apply Z.leb_gt in Hfull];
        unfold od_len in Hfull; simpl.
      * unfold od_popitem_first.
        destruct (cache sigma) as [|kv d'] eqn:Hd; simpl in *.
        { rewrite !Hw. simpl. rewrite ?Hd. simpl. repeat split; lia. }
        pose proof (od_setitem_length key value d').
        rewrite !Hw. simpl. rewrite ?Hd. simpl. repeat split; lia.
      * pose proof (od_setitem_length key value (cache sigma)).
        rewrite !Hw. simpl. repeat split; lia.
  - rewrite !Hw. simpl. repeat split; lia.
  - rewrite !Hw. simpl. repeat split; lia.
  - rewrite !Hw. simpl. repeat split; lia.
  - rewrite !Hw. simpl. repeat split; lia.
Qed.

(** *** Serial orders *)

Lemma log_of_snoc_same t log e : log_of t (log ++ [(t, e)]) = log_of t log ++ [e].
Proof.
  unfold log_of. rewrite filter_app, fmap_app.
  by rewrite filter_cons_True, filter_nil by done.
Qed.

Lemma log_of_snoc_other t t' log e :
  t' ≠ t -> log_of t' (log ++ [(t, e)]) = log_of t' log.
Proof.
  intros Hne. unfold log_of. rewrite filter_app, fmap_app.
  rewrite filter_cons_False, filter_nil by (simpl; congruence).
  by rewrite app_nil_r.
Qed.

Lemma run_ops_snoc (os : list (op K)) o self0 rs sigma r sigma' :
  call (run_ops os) self0 = Return rs sigma ->
  call (run_op o) sigma = Return r sigma' ->
  call (run_ops (os ++ [o])) self0 = Return (rs ++ [r]) sigma'.
Proof.
  revert self0 rs. induction os as [|o1 os IH]; intros self0 rs; simpl;
    unfold mbind, mret, prog_bind, prog_ret.
  - intros [= <- <-] Ho. rewrite call_bind, Ho. done.
  - rewrite !call_bind.
    destruct (call (run_op o1) self0) as [r1 s1| |]; [|done..].
    rewrite !call_bind.
    destruct (call (run_ops os) s1) as [rs1 s2| |] eqn:Hos; [|done..].
    simpl. intros [= <- <-] Ho. by rewrite (IH _ _ Hos Ho).
Qed.

Lemma outside_inv_log log log' t os th :
  log_of t log' = log_of t log ->
  outside_inv log t os th -> outside_inv log' t os th.
Proof.
  intros Heq [Hcr Hcur]. split; [done|].
  destruct (current th) as [[o p]|]; by rewrite Heq.
Qed.

Lemma perform_keeps_lock {B} (act : action K B) self res self' :
  is_acquire act = false -> is_release act = false ->
  perform act self = Some (res, self') -> lock self' = lock self.
Proof.
  destruct act; simpl; try done; intros _ _.
  - by intros [= <- <-].
  - by intros [= <- <-].
  - by intros [= <- <-].
  - destruct (od_pop key (cache self)) as [e|[v d]]; by intros [= <- <-].
  - destruct (od_popitem_first (cache self)) as [e|[kv d]]; by intros [= <- <-].
  - by intros [= <- <-].
  - by intros [= <- <-].
  - by intros [= <- <-].
Qed.

Lemma perform_release {B} (act : action K B) self res self' :
  is_release act = true -> lock self = true ->
  perform act self = Some (res, self') -> self' = set_lock false self.
Proof.
  destruct act; simpl; try done. intros _ ->. by intros [= <- <-].
Qed.

(** The invariant at the start. *)
Lemma start_inv c self0 (programs : list (list (op K))) :
  __init__ c = inr self0 ->
  config_inv self0 programs (start self0 programs) [] self0.
Proof.
  intros Hinit. pose proof (init_ok c self0 Hinit) as Hok.
  split; [done|]. split; [done|]. split; [done|].
  split; [apply length_map|]. split; [constructor|].
  left. split; [apply Hok|]. split; [done|].
  intros t th os Hth Hos. simpl in Hth.
  rewrite list_lookup_fmap, Hos in Hth. injection Hth as <-.
  by split.
Qed.

(** *** Steps keep the invariant *)

(** A step of a thread that does not hold the lock: it enters a call or
    leaves one, and the object stays as it is; or it takes the lock, which
    was free, and enters the critical section of its call. *)
Lemma outside_step log t os th th' self self' :
  outside_inv log t os th ->
  thread_step th self = Some (th', self') ->
  (self' = self /\ outside_inv log t os th') \/
  (exists o k,
     current th = Some (o, run_op o) /\
     run_op o = Do LockAcquire k /\ critical (k (inr tt)) /\
     lock self = false /\ self' = set_lock true self /\
     th' = {| pending := pending th; current := Some (o, k (inr tt));
              history := history th; crashed := crashed th |} /\
     os = (history th).*1 ++ o :: pending th /\
     log_of t log = history th /\ crashed th = None).
Proof.
  intros [Hcr Hcur] Hstep. unfold thread_step in Hstep.
  destruct (current th) as [[o p]|] eqn:Hc.
  - destruct Hcur as (Hos & [(-> & Hlog) | (r & -> & Hlog)]).
    + destruct (run_op_shape o) as (k & Hk & Hcrit). rewrite Hk in Hstep.
      simpl in Hstep. destruct (lock self) eqn:Hl; [done|].
      injection Hstep as <- <-. right. exists o, k. by rewrite Hk.
    + injection Hstep as <- <-. left. split; [done|]. split; [done|]. simpl.
      split; [|done]. rewrite fmap_app, <- app_assoc. done.
  - destruct Hcur as (Hos & Hlog).
    destruct (pending th) as [|o os'] eqn:Hpend; [done|].
    injection Hstep as <- <-. left. split; [done|]. split; [done|]. simpl.
    split; [done|]. by left.
Qed.

(** A step of the thread that holds the lock: it stays in its critical
    section, or it releases the lock, which leaves the object in the state
    at the end of the serial order. *)
Lemma inside_step self sigma log t os th th' self' :
  lock self = true ->
  inside_inv self sigma log t os th ->
  thread_step th self = Some (th', self') ->
  (lock self' = true /\ inside_inv self' sigma log t os th') \/
  (lock self' = false /\ self' = sigma /\ outside_inv log t os th').
Proof.
  intros Hl (Hcr & o & p & r & Hcur & Hos & Hcrit & Hcall & Halw & Hlog) Hstep.
  unfold thread_step in Hstep. rewrite Hcur in Hstep.
  destruct p as [a|e|B act k]; simpl in Hcrit; [done..|].
  simpl in Hcall, Halw. destruct Halw as [_ Halw].
  destruct (perform act self) as [[res s]|] eqn:Hp; [|done].
  injection Hstep as <- <-.
  destruct (is_acquire act) eqn:Hacq; [done|].
  destruct (is_release act) eqn:Hrel.
  - right. pose proof (perform_release act self res s Hrel Hl Hp) as ->.
    specialize (Hcrit res).
    destruct (k res) as [a|e|C act' k'] eqn:Hk; simpl in *; [|done..].
    injection Hcall as -> Hs. split; [done|]. split; [done|].
    split; [done|]. simpl. split; [done|]. right. eauto.
  - left. pose proof (perform_keeps_lock act self res s Hacq Hrel Hp) as Hl'.
    split; [congruence|]. split; [done|]. simpl.
    exists o, (k res), r. by repeat split.
Qed.

Lemma step_inv self0 (programs : list (list (op K))) cfg cfg' log sigma t :
  config_inv self0 programs cfg log sigma ->
  step t cfg = Some cfg' ->
  exists log' sigma', config_inv self0 programs cfg' log' sigma'.
Proof.
  intros (Hrun & Hok & Hcap & Hlen & Hlt & Hcase) Hstep.
  unfold step in Hstep.
  destruct (threads cfg !! t) as [th|] eqn:Hth; [|done].
  destruct (thread_step th (shared cfg)) as [[th' self']|] eqn:Hts; [|done].
  injection Hstep as <-.
  assert (t < length programs)%nat as Htlt
    by (rewrite <- Hlen; by eapply lookup_lt_Some).
  destruct (lookup_lt_is_Some_2 programs t Htlt) as [os Hos].
  destruct Hcase as [(Hl & Hsh & Hout)
                    |(t0 & th0 & os0 & Hl & Hth0 & Hos0 & Hin & Hout)].
  - pose proof (Hout t th os Hth Hos) as Hthis.
    destruct (outside_step _ _ _ _ _ _ _ Hthis Hts)
      as [(-> & Hthis')
         |(o & k & Hcur & Hk & Hcrit & _ & -> & -> & Hprog & Hlog & Hcr)].
    + exists log, sigma. split; [done|]. split; [done|]. split; [done|].
      split; [simpl; by rewrite length_insert|]. split; [done|].
      left. split; [done|]. split; [done|]. simpl.
      intros t' th1 os1 Hth1 Hos1.
      destruct (decide (t' = t)) as [->|Hne'].
      * rewrite list_lookup_insert_eq in Hth1 by (by eapply lookup_lt_Some).
        injection Hth1 as <-. rewrite Hos in Hos1. by injection Hos1 as <-.
      * rewrite list_lookup_insert_ne in Hth1 by done. eauto.
    + rewrite Hsh in *.
      destruct (run_op_ok o sigma Hok) as (r & sigma' & Hcall & Hok' & Hcap').
      pose proof (run_op_within o sigma Hok) as Halw.
      rewrite Hk in Hcall, Halw. simpl in Hcall, Halw.
      rewrite (ok_unlocked sigma Hok) in Hcall, Halw.
      destruct Halw as [_ Halw].
      exists (log ++ [(t, (o, r))]), sigma'.
      split.
      { unfold log_ops, log_results. rewrite !fmap_app. simpl.
        eapply run_ops_snoc; [exact Hrun|]. rewrite Hk. simpl.
        by rewrite (ok_unlocked sigma Hok). }
      split; [done|]. split; [congruence|].
      split; [simpl; by rewrite length_insert|].
      split; [apply Forall_app; split; [done|]; by repeat constructor|].
      right. exists t. eexists. exists os. simpl.
      split; [done|].
      split; [by apply list_lookup_insert_eq; eapply lookup_lt_Some|].
      split; [done|]. split.
      { split; [done|]. simpl. exists o, (k (inr tt)), r.
        split; [done|]. split; [done|]. split; [done|]. split; [done|].
        split; [by rewrite Hcap'|]. by rewrite log_of_snoc_same, Hlog. }
      intros t' th1 os1 Hne Hth1 Hos1.
      rewrite list_lookup_insert_ne in Hth1 by done.
      eapply outside_inv_log; [by apply log_of_snoc_other|]. eauto.
  - destruct (decide (t = t0)) as [->|Hne].
    + rewrite Hth0 in Hth. injection Hth as ->.
      rewrite Hos0 in Hos. injection Hos as ->.
      destruct (inside_step _ _ _ _ _ _ _ _ Hl Hin Hts)
        as [(Hl' & Hin')|(Hl' & -> & Hout')].
      * exists log, sigma. split; [done|]. split; [done|]. split; [done|].
        split; [simpl; by rewrite length_insert|]. split; [done|].
        right. exists t0, th', os. simpl. split; [done|].
        split; [by apply list_lookup_insert_eq; eapply lookup_lt_Some|].
        split; [done|]. split; [done|].
        intros t' th1 os1 Hne Hth1 Hos1.
        rewrite list_lookup_insert_ne in Hth1 by done. eauto.
      * exists log, sigma. split; [done|]. split; [done|]. split; [done|].
        split; [simpl; by rewrite length_insert|]. split; [done|].
        left. simpl. split; [done|]. split; [done|].
        intros t' th1 os1 Hth1 Hos1.
        destruct (decide (t' = t0)) as [->|Hne'].
        -- rewrite list_lookup_insert_eq in Hth1 by (by eapply lookup_lt_Some).
           injection Hth1 as <-. rewrite Hos0 in Hos1. by injection Hos1 as <-.
        -- rewrite list_lookup_insert_ne in Hth1 by done. eauto.
    + pose proof (Hout t th os Hne Hth Hos) as Hthis.
      destruct (outside_step _ _ _ _ _ _ _ Hthis Hts)
        as [(-> & Hthis')|(o & k & _ & _ & _ & Hfree & _)]; [|congruence].
      exists log, sigma. split; [done|]. split; [done|]. split; [done|].
      split; [simpl; by rewrite length_insert|]. split; [done|].
      right. exists t0, th0, os0. simpl. split; [done|].
      split; [by rewrite list_lookup_insert_ne|].
      split; [done|]. split; [done|].
      intros t' th1 os1 Hne' Hth1 Hos1.
      destruct (decide (t' = t)) as [->|Hne''].
      * rewrite list_lookup_insert_eq in Hth1 by (by eapply lookup_lt_Some).
        injection Hth1 as <-. rewrite Hos in Hos1. by injection Hos1 as <-.
      * rewrite list_lookup_insert_ne in Hth1 by done. eauto.
Qed.

Lemma exec_inv self0 (programs : list (list (op K))) schedule cfg cfg' log sigma :
  config_inv self0 programs cfg log sigma ->
  exec schedule cfg = Some cfg' ->
  exists log' sigma', config_inv self0 programs cfg' log' sigma'.
Proof.
  revert cfg log sigma. induction schedule as [|t ts IH];
    intros cfg log sigma Hinv; simpl.
  - intros [= <-]. eauto.
  - destruct (step t cfg) as [cfg1|] eqn:Hstep; [|done].
    destruct (step_inv _ _ _ _ _ _ _ Hinv Hstep) as (log1 & sigma1 & Hinv1).
    eauto.
Qed.

(** *** No deadlock *)

Lemma perform_enabled {B} (act : action K B) self :
  is_acquire act = false -> exists res self', perform act self = Some (res, self').
Proof.
  destruct act; simpl; try done; intros _; eauto.
  - destruct (lock self); eauto.
  - destruct (od_pop key (cache self)) as [e|[v d]]; eauto.
  - destruct (od_popitem_first (cache self)) as [e|[kv d]]; eauto.
Qed.

Lemma always_now {A} (P : LRUCache K -> Prop) (p : prog K A) self :
  always P p self -> P self.
Proof. destruct p; simpl; tauto. Qed.

(** While a thread has something left to do, some thread can step. *)
Lemma inv_progress self0 (programs : list (list (op K))) cfg log sigma t th :
  config_inv self0 programs cfg log sigma ->
  threads cfg !! t = Some th ->
  current th <> None \/ pending th <> [] ->
  exists t' cfg', step t' cfg = Some cfg'.
Proof.
  intros (Hrun & Hok & Hcap & Hlen & Hlt & Hcase) Hth Htodo.
  destruct Hcase as [(Hl & Hsh & Hout)
                    |(t0 & th0 & os0 & Hl & Hth0 & Hos0 & Hin & Hout)].
  - assert (t < length programs)%nat as Htlt
      by (rewrite <- Hlen; by eapply lookup_lt_Some).
    destruct (lookup_lt_is_Some_2 programs t Htlt) as [os Hos].
    destruct (Hout t th os Hth Hos) as [Hcr Hcur].
    exists t. unfold step, thread_step. rewrite Hth.
    destruct (current th) as [[o p]|].
    + destruct Hcur as (_ & [(-> & _)|(r & -> & _)]); [|eauto].
      destruct (run_op_shape o) as (k & -> & _). simpl. rewrite Hl. eauto.
    + destruct (pending th); [by destruct Htodo|eauto].
  - destruct Hin as (_ & o & p & r & Hcur & _ & Hcrit & _).
    exists t0. unfold step, thread_step. rewrite Hth0, Hcur.
    destruct p as [a|e|B act k]; simpl in Hcrit; [done..|].
    destruct (is_acquire act) eqn:Hacq; [done|].
    destruct (perform_enabled act (shared cfg) Hacq) as (res & self' & ->).
    eauto.
Qed.

(** C7.  Threads that make calls on one store, their operations
    interleaved in any way: at every point of every execution there is a
    serial order of calls, each with its thread and what it returned,
    such that running the calls one after the other on the new store
    returns just that; every thread has got from each call it has made
    what the order says, and the order has nothing more of the thread but
    the call it is in, at most; the object is, whenever the lock is free,
    in the state the serial run ends in, and the lock is free when no
    thread is within a call; the occupancy is never above the capacity,
    also inside a call; no thread has been ended by an exception; and
    while a thread has something to do, some thread can step. *)
Theorem threads_serialize c self0 (programs : list (list (op K))) schedule cfg :
  __init__ c = inr self0 ->
  exec schedule (start self0 programs) = Some cfg ->
  exists log sigma,
    call (run_ops (log_ops log)) self0 = Return (log_results log) sigma /\
    Forall (fun e => (e.1 < length programs)%nat) log /\
    length (threads cfg) = length programs /\
    (forall t th os,
       threads cfg !! t = Some th -> programs !! t = Some os ->
       crashed th = None /\
       match current th with
       | None =>
           os = (history th).*1 ++ pending th /\ log_of t log = history th
       | Some (o, _) =>
           os = (history th).*1 ++ o :: pending th /\
           (log_of t log = history th \/
            exists r, log_of t log = history th ++ [(o, r)])
       end) /\
    (lock (shared cfg) = false -> shared cfg = sigma) /\
    ((forall th, th ∈ threads cfg -> current th = None) ->
     lock (shared cfg) = false) /\
    capacity (shared cfg) = c /\
    0 <= occupancy (shared cfg) <= c /\
    ((exists th, th ∈ threads cfg /\ (current th <> None \/ pending th <> [])) ->
     exists t cfg', step t cfg = Some cfg').
Proof.
  intros Hinit Hexec.
  assert (capacity self0 = c) as Hc0.
  { unfold __init__ in Hinit. destruct (c <=? 0); [done|]. by injection Hinit as <-. }
  destruct (exec_inv _ _ _ _ _ _ _ (start_inv c self0 programs Hinit) Hexec)
    as (log & sigma & Hinv).
  pose proof Hinv as (Hrun & Hok & Hcap & Hlen & Hlt & Hcase).
  exists log, sigma. split; [done|]. split; [done|]. split; [done|].
  split; [|split; [|split; [|split; [|split]]]].
  - intros t th os Hth Hos.
    assert (outside_inv log t os th \/
            inside_inv (shared cfg) sigma log t os th) as [[Hcr Hcur]|Hin].
    { destruct Hcase as [(_ & _ & Hout)
                        |(t0 & th0 & os0 & _ & Hth0 & Hos0 & Hin & Hout)].
      - left. eauto.
      - destruct (decide (t = t0)) as [->|Hne]; [|left; eauto].
        right. rewrite Hth0 in Hth. injection Hth as <-.
        rewrite Hos0 in Hos. by injection Hos as <-. }
    + split; [done|]. destruct (current th) as [[o p]|]; [|done].
      destruct Hcur as (? & [(_ & ?)|(r & _ & ?)]); eauto.
    + destruct Hin as (Hcr & o & p & r & -> & ? & _ & _ & _ & ?). eauto.
  - intros Hl. destruct Hcase as [(_ & ? & _)|(t0 & th0 & os0 & Hl' & _)];
      [done|congruence].
  - intros Hidle.
    destruct Hcase as [(? & _)|(t0 & th0 & os0 & _ & Hth0 & _ & Hin & _)];
      [done|].
    destruct Hin as (_ & o & p & r & Hcur & _).
    rewrite (Hidle th0) in Hcur; [done|]. by eapply list_elem_of_lookup_2.
  - destruct Hcase as [(_ & -> & _)|(t0 & th0 & os0 & _ & _ & _ & Hin & _)];
      [congruence|].
    destruct Hin as (_ & o & p & r & _ & _ & _ & _ & Halw & _).
    apply always_now in Halw as [? _]. congruence.
  - pose proof (od_len_nonneg (cache (shared cfg))) as Hnn.
    unfold occupancy. split; [done|].
    destruct Hcase as [(_ & -> & _)|(t0 & th0 & os0 & _ & _ & _ & Hin & _)].
    + pose proof (ok_size sigma Hok) as Hsz. unfold occupancy in Hsz. lia.
    + destruct Hin as (_ & o & p & r & _ & _ & _ & _ & Halw & _).
      apply always_now in Halw as [_ Hsz]. unfold occupancy in Hsz. lia.
  - intros (th & [t Hth]%list_elem_of_lookup_1 & Htodo).
    by eapply inv_progress.
Qed.

End Threads.

(** ** The statements at concrete stores *)

Lemma demo_empty_reachable : reachable demo_empty.
Proof. by apply (reachable_init 2). Qed.

Lemma demo_full_reachable : reachable demo_full.
Proof.
  apply (reachable_return (OpPut 2 (PyStr "two")) PyNone
           {| capacity := 2; cache := [(1, PyStr "one")]; lock := false |});
    [|reflexivity].
  apply (reachable_return (OpPut 1 (PyStr "one")) PyNone demo_empty);
    [|reflexivity].
  apply demo_empty_reachable.
Qed.

Lemma put_absent_by_occupancy_witness :
  (reachable demo_empty /\ od_contains 1 (cache demo_empty) = false /\
   occupancy demo_empty < capacity demo_empty /\
   exists self',
     call (put 1 (PyStr "one")) demo_empty = Return PyNone self' /\
     cache self' = [(1, PyStr "one")] /\ occupancy self' = 1) /\
  (reachable demo_full /\ od_contains 3 (cache demo_full) = false /\
   occupancy demo_full = capacity demo_full /\
   exists self',
     call (put 3 (PyStr "three")) demo_full = Return PyNone self' /\
     cache self' = [(2, PyStr "two"); (3, PyStr "three")] /\
     occupancy self' = 2).
Proof.
  split.
  - refine (conj demo_empty_reachable (conj eq_refl (conj eq_refl _))).
    destruct (put_absent_by_occupancy demo_empty 1 (PyStr "one")
                demo_empty_reachable eq_refl) as [Hbelow _].
    destruct (Hbelow eq_refl) as (self' & Hput & Hd & _ & _ & Hocc).
    exists self'. split; [exact Hput|]. split; [exact Hd|exact Hocc].
  - refine (conj demo_full_reachable (conj eq_refl (conj eq_refl _))).
    destruct (put_absent_by_occupancy demo_full 3 (PyStr "three")
                demo_full_reachable eq_refl) as [_ Hfull].
    destruct (Hfull eq_refl)
      as (lru & rest & self' & _ & Hd & Hput & Hd' & _ & _ & _ & Hocc).
    exists self'. split; [exact Hput|]. split; [|exact Hocc].
    rewrite Hd'. injection Hd as _ <-. reflexivity.
Defined.

Lemma size_within_capacity_witness :
  1 <= 2 /\
  exists self0 : LRUCache Z,
    __init__ 2 = inr self0 /\
    forall n, exists rs self sz,
      call (run_ops (take n demo_calls)) self0 = Return rs self /\
      capacity self = 2 /\
      call get_size self = Return (PyInt sz) self /\
      0 <= sz <= 2.
Proof.
  split; [lia|].
  destruct (size_within_capacity 2 demo_calls ltac:(lia))
    as (self0 & Hinit & Hall & _).
  exists self0. split; [exact Hinit|exact Hall].
Defined.

Lemma get_absent_and_present_witness :
  reachable demo_full /\
  od_contains 3 (cache demo_full) = false /\
  od_lookup 1 (cache demo_full) = Some (PyStr "one") /\
  call (get 3) demo_full = Return (PyInt (-1)) demo_full /\
  exists self',
    call (get 1) demo_full = Return (PyStr "one") self' /\
    mru_item (cache self') = Some (1, PyStr "one").
Proof.
  refine (conj demo_full_reachable (conj eq_refl (conj eq_refl _))).
  destruct (get_absent_and_present demo_full 3 demo_full_reachable)
    as [Habsent _].
  destruct (get_absent_and_present demo_full 1 demo_full_reachable)
    as [_ Hpresent].
  split; [exact (Habsent eq_refl)|].
  destruct (Hpresent (PyStr "one") eq_refl) as (d1 & d2 & self' & _ & Hget & _ & Hmru).
  exists self'. split; [exact Hget|exact Hmru].
Defined.

Lemma recency_refresh_witness :
  (1 : Z) ≠ 2 /\ (1 : Z) ≠ 3 /\ (2 : Z) ≠ 3 /\
  exists self0 self3 self4 : LRUCache Z,
    __init__ 2 = inr self0 /\
    call (run_ops [OpPut 1 PyNone; OpPut 2 PyNone; OpGet 1]) self0
      = Return [PyNone; PyNone; PyNone] self3 /\
    call (put 3 PyNone) self3 = Return PyNone self4 /\
    cache self4 = [(1, PyNone); (3, PyNone)].
Proof.
  assert ((1 : Z) ≠ 2) as H12 by lia.
  assert ((1 : Z) ≠ 3) as H13 by lia.
  assert ((2 : Z) ≠ 3) as H23 by lia.
  refine (conj H12 (conj H13 (conj H23 _))).
  destruct (proj1 recency_refresh Z _ 1 2 3 PyNone PyNone PyNone H12 H13 H23)
    as (self0 & self3 & self4 & Hinit & Hrun & _ & Hput & Hd & _).
  exists self0, self3, self4. repeat split; assumption.
Defined.

Lemma peek_reads_without_refresh_witness :
  (reachable demo_full /\
   exists r self',
     call (peek 1) demo_full = Return r demo_full /\
     call (get 1) demo_full = Return r self') /\
  ((1 : Z) ≠ 2 /\ (1 : Z) ≠ 3 /\ (2 : Z) ≠ 3 /\
   exists self0 self3 self4 : LRUCache Z,
     __init__ 2 = inr self0 /\
     call (run_ops [OpPut 1 PyNone; OpPut 2 PyNone; OpPeek 1]) self0
       = Return [PyNone; PyNone; PyNone] self3 /\
     call (put 3 PyNone) self3 = Return PyNone self4 /\
     cache self4 = [(2, PyNone); (3, PyNone)]).
Proof.
  split.
  - split; [exact demo_full_reachable|].
    destruct (proj1 peek_reads_without_refresh Z _ demo_full 1
                demo_full_reachable) as (r & self' & Hpeek & Hget & _).
    exists r, self'. split; assumption.
  - assert ((1 : Z) ≠ 2) as H12 by lia.
    assert ((1 : Z) ≠ 3) as H13 by lia.
    assert ((2 : Z) ≠ 3) as H23 by lia.
    refine (conj H12 (conj H13 (conj H23 _))).
    destruct (proj2 peek_reads_without_refresh Z _ 1 2 3
                PyNone PyNone PyNone H12 H13 H23)
      as (self0 & self3 & self4 & Hinit & Hrun & _ & Hput & Hd & _).
    exists self0, self3, self4. repeat split; assumption.
Defined.

Lemma put_present_updates_witness :
  reachable demo_full /\
  od_lookup 1 (cache demo_full) = Some (PyStr "one") /\
  exists self',
    call (put 1 (PyStr "uno")) demo_full = Return PyNone self' /\
    cache self' = [(2, PyStr "two"); (1, PyStr "uno")] /\
    occupancy self' = occupancy demo_full.
Proof.
  refine (conj demo_full_reachable (conj eq_refl _)).
  destruct (put_present_updates demo_full 1 (PyStr "uno") demo_full_reachable)
    as [Hpresent _].
  destruct (Hpresent (PyStr "one") eq_refl)
    as (d1 & d2 & self' & Hd & Hput & Hself & _ & _ & _ & Hocc).
  exists self'. split; [exact Hput|]. split; [|exact Hocc].
  rewrite (put_unlocked 1 (PyStr "uno") demo_full eq_refl) in Hput.
  injection Hput as <-. reflexivity.
Defined.

Lemma demo_exec :
  exec demo_schedule (start demo_empty demo_programs) = Some demo_final.
Proof. vm_compute. reflexivity. Qed.

Lemma threads_serialize_witness :
  __init__ 2 = inr demo_empty /\
  exec demo_schedule (start demo_empty demo_programs) = Some demo_final /\
  exists log sigma,
    call (run_ops (log_ops log)) demo_empty = Return (log_results log) sigma /\
    shared demo_final = sigma /\
    log_of 0 log = [(OpPut 1 (PyStr "one"), PyNone);
                    (OpPut 2 (PyStr "two"), PyNone)] /\
    log_of 1 log = [(OpGet 1, PyStr "one")].
Proof.
  split; [reflexivity|]. split; [exact demo_exec|].
  destruct (threads_serialize 2 demo_empty demo_programs demo_schedule
              demo_final eq_refl demo_exec)
    as (log & sigma & Hrun & _ & _ & Hthreads & Hfree & _).
  exists log, sigma. split; [exact Hrun|]. split; [exact (Hfree eq_refl)|].
  split.
  - destruct (Hthreads 0%nat _ _ eq_refl eq_refl) as (_ & _ & Hlog). exact Hlog.
  - destruct (Hthreads 1%nat _ _ eq_refl eq_refl) as (_ & _ & Hlog). exact Hlog.
Defined.

Lemma only_constructor_fails_witness :
  (0 <= 0 /\
   @__init__ Z 0 = inl (ValueError "Capacity must be positive")) /\
  (reachable demo_full /\
   exists self', call (put 3 (PyStr "three")) demo_full = Return PyNone self').
Proof.
  destruct (@only_constructor_fails Z _) as (_ & Hfail & _ & Hcalls).
  split.
  - split; [lia|]. apply Hfail. lia.
  - split; [exact demo_full_reachable|].
    destruct (Hcalls demo_full demo_full_reachable) as (Hput & _).
    exact (Hput 3 (PyStr "three")).
Defined.

Lemma put_frame_witness :
  reachable demo_full /\ (1 : Z) ≠ 3 /\
  exists self',
    call (put 3 (PyStr "three")) demo_full = Return PyNone self' /\
    od_lookup 1 (cache self') = None.
Proof.
  assert ((1 : Z) ≠ 3) as H13 by lia.
  refine (conj demo_full_reachable (conj H13 _)).
  destruct (put_frame demo_full 3 (PyStr "three") 1 demo_full_reachable H13)
    as (self' & Hput & _ & Hremoved & _).
  exists self'. split; [exact Hput|].
  destruct (Hremoved (PyStr "one") eq_refl) as [[_ Hgone] _].
  apply Hgone. repeat split; reflexivity.
Defined.

(** ** What a call does to the dictionary *)

Section CallEffects.
Context {K : Type} `{EqDecision K}.
Implicit Types (self : LRUCache K) (d : list (K * pyval)).
Implicit Types (k key : K) (v value : pyval) (o : op K).

Lemma set_cache_same self : set_cache (cache self) self = self.
Proof. by destruct self. Qed.

(** Every call on a store in order returns, and leaves the dictionary
    that [cache_after] gives. *)
Lemma run_op_cache o self :
  store_ok self ->
  exists r,
    call (run_op o) self =
      Return r (set_cache (cache_after o (capacity self) (cache self)) self).
Proof.
  intros Hok. pose proof (ok_unlocked self Hok) as Hl.
  destruct o; cbn [run_op cache_after].
  - rewrite get_unlocked by done.
    destruct (od_lookup key (cache self)) as [v|] eqn:Hv.
    + rewrite refresh_eq by apply Hok. eauto.
    + rewrite set_cache_same. eauto.
  - destruct (od_contains key (cache self)) eqn:Hin.
    + rewrite (put_present_unlocked key value self Hok Hin). eauto.
    + rewrite (put_absent_unlocked key value self Hok Hin). eauto.
  - rewrite peek_unlocked, set_cache_same by done. eauto.
  - rewrite clear_unlocked by done. eauto.
  - rewrite get_size_unlocked, set_cache_same by done. eauto.
  - rewrite is_full_unlocked, set_cache_same by done. eauto.
Qed.

Lemma run_op_cache_ok o self :
  store_ok self ->
  exists r self',
    call (run_op o) self = Return r self' /\
    store_ok self' /\ capacity self' = capacity self /\
    cache self' = cache_after o (capacity self) (cache self).
Proof.
  intros Hok. destruct (run_op_cache o self Hok) as [r Hr].
  destruct (run_op_ok o self Hok) as (r' & self' & Hr' & Hok' & Hc).
  rewrite Hr in Hr'. injection Hr' as <- <-. eauto 10.
Qed.

Lemma run_ops_cons o (os : list (op K)) self r self1 rs self2 :
  call (run_op o) self = Return r self1 ->
  call (run_ops os) self1 = Return rs self2 ->
  call (run_ops (o :: os)) self = Return (r :: rs) self2.
Proof.
  intros Ho Hos. cbn [run_ops]. unfold mbind, mret, prog_bind, prog_ret.
  by rewrite call_bind, Ho, call_bind, Hos.
Qed.

Lemma od_lookup_touch key v k d :
  NoDup d.*1 ->
  od_lookup k (od_remove key d ++ [(key, v)]) =
    if decide (k = key) then Some v else od_lookup k d.
Proof.
  intros Hnd. rewrite od_lookup_app. destruct (decide (k = key)) as [->|Hne].
  - rewrite od_lookup_remove_eq by done. simpl. by rewrite decide_True.
  - rewrite od_lookup_remove_ne by done.
    destruct (od_lookup k d); [done|]. simpl. by rewrite decide_False.
Qed.

Lemma od_lookup_snoc key v k d :
  od_lookup key d = None ->
  od_lookup k (d ++ [(key, v)]) =
    if decide (k = key) then Some v else od_lookup k d.
Proof.
  intros Habs. rewrite od_lookup_app. destruct (decide (k = key)) as [->|Hne].
  - rewrite Habs. simpl. by rewrite decide_True.
  - destruct (od_lookup k d); [done|]. simpl. by rewrite decide_False.
Qed.

(** What is stored under a key after a call. *)
Lemma cache_after_lookup o c d k :
  NoDup d.*1 ->
  od_lookup k (cache_after o c d) =
    match o with
    | OpPut key value =>
        if decide (k = key) then Some value
        else if negb (od_contains key d) && (od_len d >=? c) &&
                bool_decide (fst <$> head d = Some k)
             then None
             else od_lookup k d
    | OpClear => None
    | _ => od_lookup k d
    end.
Proof.
  intros Hnd. destruct o; cbn [cache_after]; try done.
  - destruct (od_lookup key d) as [v|] eqn:Hv; [|done].
    rewrite od_lookup_touch by done. by destruct (decide (k = key)) as [->|].
  - destruct (od_contains key d) eqn:Hin; simpl.
    + by rewrite od_lookup_touch.
    + apply od_contains_false in Hin.
      destruct (od_len d >=? c); simpl.
      * destruct d as [|[k0 v0] rest]; simpl in *.
        { destruct (decide (k = key)) as [->|Hne].
          - by rewrite decide_True.
          - by rewrite decide_False. }
        destruct (decide (k0 = key)); [done|].
        apply NoDup_cons in Hnd as [Hk0 Hnd].
        rewrite od_lookup_snoc by done.
        destruct (decide (k = key)); [done|].
        destruct (decide (k0 = k)) as [->|Hne].
        -- rewrite bool_decide_eq_true_2 by done. by apply od_lookup_None_keys.
        -- rewrite bool_decide_eq_false_2; [done|]. by intros [=].
      * by rewrite od_lookup_snoc.
Qed.

Lemma od_remove_snoc key v d :
  od_lookup key d = None -> od_remove key (d ++ [(key, v)]) = d.
Proof.
  induction d as [|[k0 v0] d IH]; simpl.
  - by rewrite decide_True.
  - destruct (decide (k0 = key)); [done|]. intros Habs. by rewrite IH.
Qed.

Lemma snoc_absent key v d :
  NoDup (d ++ [(key, v)]).*1 -> od_lookup key d = None.
Proof.
  rewrite fmap_app. intros (_ & Hdisj & _)%NoDup_app.
  apply od_lookup_None_keys. intros Hin. apply (Hdisj key Hin). simpl. left.
Qed.

Lemma cache_after_len o c d :
  is_clear o = false ->
  od_len d <= od_len (cache_after o c d) <= od_len d + 1.
Proof.
  intros Hclear. unfold od_len.
  assert (forall key v, od_contains key d = true ->
            length (od_remove key d ++ [(key, v)]) = length d) as Htouch.
  { intros key v Hin. apply od_remove_length in Hin.
    rewrite length_app. simpl. lia. }
  destruct o; cbn [cache_after]; try done; try lia.
  - destruct (od_lookup key d) as [v|] eqn:Hv; [|lia].
    rewrite Htouch by (apply od_contains_true; eauto). lia.
  - destruct (od_contains key d) eqn:Hin; [rewrite Htouch by done; lia|].
    rewrite length_app. simpl.
    destruct (od_len d >=? c); [|lia]. destruct d; simpl; lia.
Qed.

(** The item just put, or just got, is the last one. *)
Lemma cache_after_mru o c d key :
  (exists value, o = OpPut key value) \/
  (o = OpGet key /\ od_contains key d = true) ->
  exists d' v,
    cache_after o c d = d' ++ [(key, v)] /\
    (forall value, o = OpPut key value -> v = value) /\
    (o = OpGet key -> od_lookup key d = Some v).
Proof.
  intros [[value ->]|[-> Hin]]; cbn [cache_after].
  - destruct (od_contains key d).
    + eexists _, value. split; [done|]. split; [by intros ? [= ->]|done].
    + eexists _, value. split; [done|]. split; [by intros ? [= ->]|done].
  - apply od_contains_true in Hin as [v Hv]. rewrite Hv.
    eexists _, v. split; [done|]. split; done.
Qed.

(** [get] of the key used last changes nothing. *)
Lemma get_mru_unchanged self key v :
  store_ok self -> mru_item (cache self) = Some (key, v) ->
  call (get key) self = Return v self.
Proof.
  intros Hok [d' Hd]%last_Some. pose proof (ok_nodup self Hok) as Hnd.
  rewrite Hd in Hnd. pose proof (snoc_absent key v d' Hnd) as Habs.
  assert (od_lookup key (cache self) = Some v) as Hv.
  { rewrite Hd, od_lookup_snoc by done. by rewrite decide_True. }
  rewrite (get_present_unlocked key v self Hok Hv).
  rewrite Hd at 1. rewrite od_remove_snoc by done.
  by rewrite <- Hd, set_cache_same.
Qed.

(** [put] of the item used last changes nothing. *)
Lemma put_mru_unchanged self key v :
  store_ok self -> mru_item (cache self) = Some (key, v) ->
  call (put key v) self = Return PyNone self.
Proof.
  intros Hok [d' Hd]%last_Some. pose proof (ok_nodup self Hok) as Hnd.
  rewrite Hd in Hnd. pose proof (snoc_absent key v d' Hnd) as Habs.
  assert (od_contains key (cache self) = true) as Hin.
  { apply od_contains_true. exists v.
    rewrite Hd, od_lookup_snoc by done. by rewrite decide_True. }
  rewrite (put_present_unlocked key v self Hok Hin).
  rewrite Hd at 1. rewrite od_remove_snoc by done.
  by rewrite <- Hd, set_cache_same.
Qed.

(** X1.  On a reachable store, [clear()] returns [None] and leaves the
    store that the constructor makes for the same capacity: [get_size()]
    returns 0, [is_full()] returns [False], and [get] and [peek] return
    [-1] for every key, without changing the store. *)
Theorem clear_gives_new_store self :
  reachable self ->
  exists self',
    call clear self = Return PyNone self' /\
    __init__ (capacity self) = inr self' /\
    call get_size self' = Return (PyInt 0) self' /\
    call is_full self' = Return (PyBool false) self' /\
    forall key,
      call (get key) self' = Return (PyInt (-1)) self' /\
      call (peek key) self' = Return (PyInt (-1)) self'.
Proof.
  intros [Hc Hl Hnd Hsz]%reachable_ok.
  exists (set_cache [] self). split; [by apply clear_unlocked|].
  split.
  { unfold __init__. rewrite (proj2 (Z.leb_gt _ _)) by done.
    f_equal. destruct self; simpl in *; by subst. }
  split; [by rewrite get_size_unlocked|].
  split.
  { rewrite is_full_unlocked by done. unfold occupancy, od_len. simpl.
    by rewrite Z.geb_leb, (proj2 (Z.leb_gt _ _)). }
  intros key. split.
  - by rewrite get_unlocked.
  - by rewrite peek_unlocked.
Qed.

(** X2.  On a reachable store, [is_full()] changes nothing and returns
    [True] exactly when the occupancy is the capacity.  It tells what the
    [put] of a new key will do: after [False] the occupancy grows by one
    and every stored key stays; after [True] the occupancy stays and the
    least recently used key goes. *)
Theorem is_full_tells_eviction self :
  reachable self ->
  exists b,
    call is_full self = Return (PyBool b) self /\
    (b = true <-> occupancy self = capacity self) /\
    forall key value,
      od_contains key (cache self) = false ->
      exists self',
        call (put key value) self = Return PyNone self' /\
        if b then
          occupancy self' = occupancy self /\
          exists lru, lru_item (cache self) = Some lru /\
                      od_contains lru.1 (cache self') = false
        else
          occupancy self' = occupancy self + 1 /\
          forall k, od_contains k (cache self) = true ->
                    od_contains k (cache self') = true.
Proof.
  intros Hok%reachable_ok. destruct (Hok) as [Hc Hl Hnd Hsz].
  exists (occupancy self >=? capacity self).
  split; [by apply is_full_unlocked|].
  rewrite Z.geb_leb.
  split; [rewrite Z.leb_le; lia|].
  intros key value Habs.
  rewrite (put_absent_unlocked key value self Hok Habs).
  eexists. split; [done|]. simpl. unfold occupancy in *.
  rewrite Z.geb_leb.
  destruct (capacity self <=? od_len (cache self)) eqn:Hfull;
    [apply Z.leb_le in Hfull|apply Z.leb_gt in Hfull].
  - destruct (cache self) as [|[k0 v0] rest] eqn:Hd.
    { unfold od_len in Hfull. simpl in Hfull. lia. }
    simpl. split.
    + rewrite od_len_app. unfold od_len. simpl. lia.
    + exists (k0, v0). split; [done|]. simpl.
      apply NoDup_cons in Hnd as [Hk0 _]. simpl in Habs.
      destruct (decide (k0 = key)); [done|].
      apply od_contains_false. rewrite od_lookup_snoc by (by apply od_contains_false).
      rewrite decide_False by done. by apply od_lookup_None_keys.
  - simpl. split.
    + rewrite od_len_app. unfold od_len. simpl. lia.
    + intros k [v Hv]%od_contains_true. apply od_contains_true.
      exists v. by rewrite od_lookup_app, Hv.
Qed.

(** X3.  On a reachable store, after [put(key, value)] both [peek(key)]
    and [get(key)] return [value], and neither changes the store: the
    key is already the most recently used one. *)
Theorem put_then_read self key value :
  reachable self ->
  exists self1,
    call (put key value) self = Return PyNone self1 /\
    mru_item (cache self1) = Some (key, value) /\
    call (peek key) self1 = Return value self1 /\
    call (get key) self1 = Return value self1.
Proof.
  intros Hok%reachable_ok.
  destruct (run_op_cache_ok (OpPut key value) self Hok)
    as (r & self1 & Hput & Hok1 & _ & Hd).
  destruct (put_ok key value self Hok) as (s1 & Hput' & _).
  cbn [run_op] in Hput. rewrite Hput' in Hput. injection Hput as <- ->.
  destruct (cache_after_mru (OpPut key value) (capacity self) (cache self) key)
    as (d' & v & Hd' & Hv & _); [eauto|].
  rewrite (Hv value eq_refl) in Hd'. rewrite Hd' in Hd.
  assert (mru_item (cache self1) = Some (key, value)) as Hmru
    by (rewrite Hd; apply mru_item_snoc).
  exists self1. split; [done|]. split; [done|].
  split; [|by apply get_mru_unchanged].
  rewrite peek_unlocked by apply Hok1. f_equal. unfold od_get.
  pose proof (ok_nodup self1 Hok1) as Hnd. rewrite Hd in Hnd.
  rewrite Hd, od_lookup_snoc by (by eapply snoc_absent).
  by rewrite decide_True.
Qed.

(** X4.  A reachable store of capacity 1 holds, after [put(key, value)],
    that item and nothing else, whatever it held before. *)
Theorem capacity_one_keeps_last_put self key value :
  reachable self -> capacity self = 1 ->
  exists self',
    call (put key value) self = Return PyNone self' /\
    cache self' = [(key, value)].
Proof.
  intros Hok%reachable_ok Hone. destruct (Hok) as [Hc Hl Hnd Hsz].
  unfold occupancy, od_len in Hsz. rewrite Hone in Hsz.
  destruct (od_contains key (cache self)) eqn:Hin.
  - rewrite (put_present_unlocked key value self Hok Hin).
    eexists. split; [done|]. simpl.
    destruct (cache self) as [|[k0 v0] [|kv rest]]; simpl in *; [done| |lia].
    destruct (decide (k0 = key)); done.
  - rewrite (put_absent_unlocked key value self Hok Hin).
    eexists. split; [done|]. simpl. rewrite Hone. unfold od_len.
    destruct (cache self) as [|[k0 v0] [|kv rest]]; simpl in *; [done..|lia].
Qed.

(** X5.  On a reachable store, a call repeated at once changes nothing
    more: a second [get(key)] returns what the first returned and leaves
    the store of the first, and so does a second [put(key, value)]. *)
Theorem repeated_call_changes_nothing self key :
  reachable self ->
  (exists r self1,
     call (get key) self = Return r self1 /\
     call (get key) self1 = Return r self1) /\
  (forall value, exists self1,
     call (put key value) self = Return PyNone self1 /\
     call (put key value) self1 = Return PyNone self1).
Proof.
  intros Hok%reachable_ok. split.
  - destruct (run_op_cache_ok (OpGet key) self Hok)
      as (r & self1 & Hget & Hok1 & _ & Hd).
    cbn [run_op] in Hget. exists r, self1. split; [done|].
    pose proof Hget as Hget'.
    rewrite get_unlocked in Hget' by apply Hok.
    destruct (od_lookup key (cache self)) as [v|] eqn:Hv.
    + injection Hget' as <- _.
      apply get_mru_unchanged; [done|]. rewrite Hd. cbn [cache_after].
      rewrite Hv. apply mru_item_snoc.
    + injection Hget' as <- <-. rewrite get_unlocked by apply Hok.
      by rewrite Hv.
  - intros value.
    destruct (run_op_cache_ok (OpPut key value) self Hok)
      as (r & self1 & Hput & Hok1 & _ & Hd).
    destruct (put_ok key value self Hok) as (s1 & Hput' & _).
    cbn [run_op] in Hput. rewrite Hput' in Hput. injection Hput as <- ->.
    exists self1. split; [done|]. apply put_mru_unchanged; [done|].
    destruct (cache_after_mru (OpPut key value) (capacity self) (cache self) key)
      as (d' & v & Hd' & Hv & _); [eauto|].
    rewrite Hd, Hd', (Hv value eq_refl). apply mru_item_snoc.
Qed.

Lemma run_ops_len (os : list (op K)) self :
  store_ok self ->
  Forall (fun o => is_clear o = false) os ->
  exists rs self',
    call (run_ops os) self = Return rs self' /\
    store_ok self' /\ capacity self' = capacity self /\
    occupancy self <= occupancy self' <= occupancy self + Z.of_nat (length os).
Proof.
  intros Hok Hos. revert self Hok.
  induction Hos as [|o os Ho Hos IH]; intros self Hok.
  - exists [], self. split; [done|]. split; [done|]. split; [done|].
    simpl. lia.
  - destruct (run_op_cache_ok o self Hok) as (r & self1 & Hr & Hok1 & Hc1 & Hd1).
    destruct (IH self1 Hok1) as (rs & self2 & Hrs & Hok2 & Hc2 & Hlen).
    exists (r :: rs), self2. split; [by eapply run_ops_cons|].
    split; [done|]. split; [congruence|].
    pose proof (cache_after_len o (capacity self) (cache self) Ho) as Hstep.
    rewrite <- Hd1 in Hstep. unfold occupancy in *.
    cbn [length]. rewrite Nat2Z.inj_succ. lia.
Qed.

(** X6.  On a reachable store, calls other than [clear] never lower the
    occupancy, and each raises it by one at most; so a store that is full
    stays full until it is cleared. *)
Theorem occupancy_only_grows (os : list (op K)) self :
  reachable self ->
  Forall (fun o => is_clear o = false) os ->
  exists rs self',
    call (run_ops os) self = Return rs self' /\
    occupancy self <= occupancy self' <= occupancy self + Z.of_nat (length os) /\
    (occupancy self = capacity self -> occupancy self' = capacity self') /\
    (call is_full self = Return (PyBool true) self ->
     call is_full self' = Return (PyBool true) self').
Proof.
  intros Hok%reachable_ok Hos.
  destruct (run_ops_len os self Hok Hos) as (rs & self' & Hrun & Hok' & Hc & Hlen).
  exists rs, self'. split; [done|]. split; [done|].
  pose proof (ok_size self' Hok') as Hsz'.
  split; [lia|].
  rewrite !is_full_unlocked by (apply Hok || apply Hok').
  intros [= Hfull]. rewrite Z.geb_leb in Hfull. apply Z.leb_le in Hfull.
  do 2 f_equal. rewrite Z.geb_leb. apply Z.leb_le. lia.
Qed.

(** *** Runs from a new store *)

Lemma od_lookup_elem_of key v d :
  NoDup d.*1 -> (key, v) ∈ d -> od_lookup key d = Some v.
Proof.
  induction d as [|[k w] d IH]; simpl; intros Hnd Hin.
  - inversion Hin.
  - apply NoDup_cons in Hnd as [Hk Hnd].
    apply elem_of_cons in Hin as [[= <- <-]|Hin].
    + by rewrite decide_True.
    + destruct (decide (k = key)) as [->|]; [|auto].
      exfalso. apply Hk. change key with (key, v).1.
      by apply list_elem_of_fmap_2.
Qed.

Lemma puts_keep_newest c (items : list (K * pyval)) self0 :
  store_ok self0 -> cache self0 = [] -> capacity self0 = c ->
  NoDup items.*1 ->
  exists rs self,
    call (run_ops (map (fun kv => OpPut kv.1 kv.2) items)) self0
      = Return rs self /\
    store_ok self /\ capacity self = c /\
    cache self = drop (length items - Z.to_nat c) items.
Proof.
  intros Hok0 Hd0 Hc0. induction items as [|[key value] items IH] using rev_ind.
  - intros _. exists [], self0. by rewrite Hd0.
  - rewrite fmap_app. intros (Hnd & Hfresh & _)%NoDup_app.
    destruct (IH Hnd) as (rs & self & Hrun & Hok & Hc & Hd).
    assert (od_contains key (cache self) = false) as Habs.
    { apply od_contains_false, od_lookup_None_keys. rewrite Hd.
      intros Hin. apply (Hfresh key); [|simpl; left].
      apply list_elem_of_fmap in Hin as (kv & -> & Hkv).
      apply list_elem_of_fmap. exists kv. split; [done|].
      by eapply subseteq_drop. }
    exists (rs ++ [PyNone]). eexists. rewrite map_app. simpl.
    split.
    { eapply run_ops_snoc; [exact Hrun|]. cbn [run_op].
      apply (put_absent_unlocked key value self Hok Habs). }
    pose proof (put_ok key value self Hok) as (self' & Hput & Hok' & Hc').
    rewrite (put_absent_unlocked key value self Hok Habs) in Hput.
    injection Hput as Hself'. rewrite Hself'.
    split; [done|]. split; [congruence|]. rewrite <- Hself'. simpl.
    rewrite Hc, Hd, length_app. simpl. unfold od_len.
    rewrite length_drop, Z.geb_leb.
    pose proof (ok_capacity self Hok) as Hpos. rewrite Hc in Hpos.
    destruct (c <=? Z.of_nat (length items - (length items - Z.to_nat c)))
      eqn:Hfull; [apply Z.leb_le in Hfull|apply Z.leb_gt in Hfull].
    + assert (tail (drop (length items - Z.to_nat c) items) =
              drop (S (length items - Z.to_nat c)) items) as ->.
      { generalize (length items - Z.to_nat c)%nat. intros m.
        replace (S m) with (m + 1)%nat by lia.
        rewrite <- drop_drop. by destruct (drop m items). }
      rewrite drop_app_le by lia. do 2 f_equal. lia.
    + replace (length items - Z.to_nat c)%nat with 0%nat by lia.
      replace (length items + 1 - Z.to_nat c)%nat with 0%nat by lia.
      done.
Qed.

(** X7.  Puts of distinct keys into a new store of capacity [c] leave
    the last [c] of the items, in the order of the puts, and all of them
    when there are no more than [c]: [peek] returns the value of each of
    these, and [-1] for each key put before them. *)
Theorem distinct_puts_keep_newest c (items : list (K * pyval)) :
  0 < c -> NoDup items.*1 ->
  exists self0 rs self,
    __init__ c = inr self0 /\
    call (run_ops (map (fun kv => OpPut kv.1 kv.2) items)) self0
      = Return rs self /\
    cache self = drop (length items - Z.to_nat c) items /\
    (Z.of_nat (length items) <= c -> cache self = items) /\
    (forall key value,
       (key, value) ∈ drop (length items - Z.to_nat c) items ->
       call (peek key) self = Return value self) /\
    (forall key value,
       (key, value) ∈ take (length items - Z.to_nat c) items ->
       call (peek key) self = Return (PyInt (-1)) self).
Proof.
  intros Hc Hnd.
  assert (@__init__ K c = inr {| capacity := c; cache := []; lock := false |})
    as Hinit by (unfold __init__; by rewrite (proj2 (Z.leb_gt _ _))).
  pose proof (init_ok c _ Hinit) as Hok0.
  destruct (puts_keep_newest c items _ Hok0 eq_refl eq_refl Hnd)
    as (rs & self & Hrun & Hok & Hcap & Hd).
  eexists _, rs, self. split; [exact Hinit|]. split; [done|].
  split; [done|].
  split.
  { intros Hle. rewrite Hd.
    by replace (length items - Z.to_nat c)%nat with 0%nat by lia. }
  assert (NoDup (drop (length items - Z.to_nat c) items).*1) as Hnd'
    by (rewrite <- Hd; apply Hok).
  split.
  - intros key value Hin. rewrite peek_unlocked by apply Hok.
    unfold od_get. by rewrite Hd, (od_lookup_elem_of key value _ Hnd' Hin).
  - intros key value Hin. rewrite peek_unlocked by apply Hok.
    unfold od_get.
    assert (od_lookup key (cache self) = None) as ->; [|done].
    apply od_lookup_None_keys. rewrite Hd. intros Hin'.
    rewrite <- (take_drop (length items - Z.to_nat c) items), fmap_app in Hnd.
    apply NoDup_app in Hnd as (_ & Hdisj & _).
    apply (Hdisj key); [|done].
    change key with (key, value).1. by apply list_elem_of_fmap_2.
Qed.

Lemma put_keys_snoc (os : list (op K)) o :
  put_keys (os ++ [o]) = put_keys os ++ put_keys [o].
Proof. unfold put_keys. by rewrite omap_app. Qed.

Lemma put_keys_snoc_elem (os : list (op K)) o k :
  k ∈ put_keys (os ++ [o]) -> k ∈ put_keys os \/ k ∈ put_keys [o].
Proof. rewrite put_keys_snoc. apply elem_of_app. Qed.

(** Which keys are stored after a call, from those stored before. *)
Lemma cache_after_keys o c d k :
  NoDup d.*1 -> is_clear o = false ->
  (od_contains k (cache_after o c d) = true ->
   k ∈ put_keys [o] \/ od_contains k d = true) /\
  (k ∈ put_keys [o] -> od_contains k (cache_after o c d) = true) /\
  (od_contains k d = true -> od_len d < c ->
   od_contains k (cache_after o c d) = true).
Proof.
  intros Hnd Hclear. rewrite !od_contains_lookup, !bool_decide_eq_true.
  rewrite (cache_after_lookup o c d k Hnd).
  destruct o; try done; simpl.
  1,3-5: split; [by right|]; split; [|done];
    intros Hin; apply elem_of_nil in Hin; done.
  destruct (decide (k = key)) as [->|Hne].
  - split; [intros _; left; by left|]. split; by eauto.
  - split; [|split].
    + intros Hin. right.
      by destruct (negb (od_contains key d) && (od_len d >=? c) &&
                   bool_decide (fst <$> head d = Some k));
        [destruct Hin|].
    + intros [->|Hin%elem_of_nil]%elem_of_cons; done.
    + intros Hin Hlt. rewrite Z.geb_leb, (proj2 (Z.leb_gt _ _)) by done.
      by rewrite andb_false_r.
Qed.

(** After calls other than [clear] on a new store: the stored keys have
    all been put, and either every key put is stored or the store is
    full. *)
Lemma serial_keys (os : list (op K)) self0 :
  store_ok self0 -> cache self0 = [] ->
  Forall (fun o => is_clear o = false) os ->
  exists rs self,
    call (run_ops os) self0 = Return rs self /\
    store_ok self /\ capacity self = capacity self0 /\
    (forall k, od_contains k (cache self) = true -> k ∈ put_keys os) /\
    ((forall k, k ∈ put_keys os -> od_contains k (cache self) = true) \/
     occupancy self = capacity self).
Proof.
  intros Hok0 Hd0. induction os as [|o os IH] using rev_ind.
  - intros _. exists [], self0. split; [done|]. split; [done|]. split; [done|].
    rewrite Hd0. split; [done|]. left. intros k Hk. by apply elem_of_nil in Hk.
  - intros [Hos [Ho _]%Forall_cons]%Forall_app.
    destruct (IH Hos) as (rs & self & Hrun & Hok & Hc & Hsub & Hall).
    destruct (run_op_cache_ok o self Hok) as (r & self' & Hr & Hok' & Hc' & Hd').
    exists (rs ++ [r]), self'. split; [by eapply run_ops_snoc|].
    split; [done|]. split; [congruence|].
    pose proof (ok_nodup self Hok) as Hnd.
    pose proof (fun k => cache_after_keys o (capacity self) (cache self) k Hnd Ho)
      as Hkeys. rewrite <- Hd' in Hkeys.
    split.
    { intros k Hk. rewrite put_keys_snoc, elem_of_app.
      destruct (proj1 (Hkeys k) Hk); auto. }
    pose proof (cache_after_len o (capacity self) (cache self) Ho) as Hlen.
    rewrite <- Hd' in Hlen. pose proof (ok_size self Hok) as Hsz.
    pose proof (ok_size self' Hok') as Hsz'. unfold occupancy in *.
    destruct (decide (od_len (cache self) = capacity self)) as [Hfull|Hnot].
    { right. lia. }
    destruct Hall as [Hall|?]; [|done]. left.
    intros k [Hk|Hk]%put_keys_snoc_elem.
    + apply (proj2 (proj2 (Hkeys k))); [by apply Hall|lia].
    + by apply (proj1 (proj2 (Hkeys k))).
Qed.

Lemma occupancy_min (os : list (op K)) self :
  store_ok self ->
  (forall k, od_contains k (cache self) = true -> k ∈ put_keys os) ->
  (forall k, k ∈ put_keys os -> od_contains k (cache self) = true) \/
  occupancy self = capacity self ->
  occupancy self =
    Z.min (capacity self) (Z.of_nat (length (remove_dups (put_keys os)))).
Proof.
  intros Hok Hsub Hall. pose proof (ok_size self Hok) as Hsz.
  unfold occupancy, od_len in *.
  rewrite <- (length_fmap fst (cache self)) in *.
  assert (length (cache self).*1 <= length (remove_dups (put_keys os)))%nat
    as Hle.
  { apply submseteq_length, NoDup_submseteq; [apply Hok|].
    intros k Hk. apply elem_of_remove_dups. apply Hsub.
    apply (proj2 (od_contains_keys k (cache self))). done. }
  destruct Hall as [Hall|Hfull]; [|lia].
  assert (length (remove_dups (put_keys os)) <= length (cache self).*1)%nat.
  { apply submseteq_length, NoDup_submseteq; [apply NoDup_remove_dups|].
    intros k Hk. apply (proj1 (elem_of_remove_dups _ _)) in Hk.
    apply (proj1 (od_contains_keys k (cache self))). by apply Hall. }
  lia.
Qed.

(** X8.  After any calls other than [clear] on a new store of capacity
    [c], the occupancy is the number of distinct keys that were put, or
    [c] when they are more; and every key stored is one that was put (a
    [get] or a [peek] never adds a key). *)
Theorem occupancy_counts_distinct_puts c (os : list (op K)) :
  0 < c -> Forall (fun o => is_clear o = false) os ->
  exists self0 rs self,
    __init__ c = inr self0 /\
    call (run_ops os) self0 = Return rs self /\
    occupancy self = Z.min c (Z.of_nat (length (remove_dups (put_keys os)))) /\
    call get_size self
      = Return (PyInt (Z.min c (Z.of_nat (length (remove_dups (put_keys os))))))
          self /\
    (forall k, od_contains k (cache self) = true -> k ∈ put_keys os).
Proof.
  intros Hc Hos.
  assert (@__init__ K c = inr {| capacity := c; cache := []; lock := false |})
    as Hinit by (unfold __init__; by rewrite (proj2 (Z.leb_gt _ _))).
  pose proof (init_ok c _ Hinit) as Hok0.
  destruct (serial_keys os _ Hok0 eq_refl Hos)
    as (rs & self & Hrun & Hok & Hcap & Hsub & Hall).
  pose proof (occupancy_min os self Hok Hsub Hall) as Hocc.
  simpl in Hcap. rewrite Hcap in Hocc.
  eexists _, rs, self. split; [exact Hinit|]. split; [done|].
  split; [done|]. split; [|done].
  rewrite get_size_unlocked by apply Hok. by rewrite Hocc.
Qed.

(** After calls on a new store, a value that is stored is the value of
    a [put] of the key that no later [put] of the key and no later
    [clear] follows. *)
Lemma serial_values (os : list (op K)) self0 :
  store_ok self0 -> cache self0 = [] ->
  exists rs self,
    call (run_ops os) self0 = Return rs self /\
    store_ok self /\
    forall k v,
      od_lookup k (cache self) = Some v ->
      exists pre post,
        os = pre ++ OpPut k v :: post /\
        Forall (fun o => is_clear o = false /\ forall v', o <> OpPut k v') post.
Proof.
  intros Hok0 Hd0. induction os as [|o os IH] using rev_ind.
  - exists [], self0. split; [done|]. split; [done|]. by rewrite Hd0.
  - destruct IH as (rs & self & Hrun & Hok & Hlast).
    destruct (run_op_cache_ok o self Hok) as (r & self' & Hr & Hok' & Hc' & Hd').
    exists (rs ++ [r]), self'. split; [by eapply run_ops_snoc|].
    split; [done|]. intros k v. rewrite Hd'.
    rewrite (cache_after_lookup o _ _ k (ok_nodup self Hok)).
    assert (od_lookup k (cache self) = Some v ->
            is_clear o = false -> (forall v', o <> OpPut k v') ->
            exists pre post,
              os ++ [o] = pre ++ OpPut k v :: post /\
              Forall (fun o => is_clear o = false /\
                               forall v', o <> OpPut k v') post) as Hkeep.
    { intros Hv Hclear Hput. destruct (Hlast k v Hv) as (pre & post & -> & Hpost).
      exists pre, (post ++ [o]). split; [by rewrite <- app_assoc|].
      apply Forall_app. split; [done|]. by repeat constructor. }
    destruct o; try (by intros Hv; apply Hkeep).
    destruct (decide (k = key)) as [->|Hne].
    + intros [= <-]. exists os, []. split; [done|]. constructor.
    + destruct (negb (od_contains key (cache self)) &&
                (od_len (cache self) >=? capacity self) &&
                bool_decide (fst <$> head (cache self) = Some k)); [done|].
      intros Hv. apply Hkeep; [done|done|]. by intros v' [= <-].
Qed.

(** X9.  After any calls on a new store, a value stored under a key is
    the value of the last [put] of that key, and no [clear] follows that
    [put]: the store never holds a value that a later [put] replaced or a
    [clear] removed. *)
Theorem stored_value_is_last_put c (os : list (op K)) :
  0 < c ->
  exists self0 rs self,
    __init__ c = inr self0 /\
    call (run_ops os) self0 = Return rs self /\
    forall key v,
      od_lookup key (cache self) = Some v ->
      call (peek key) self = Return v self /\
      exists pre post,
        os = pre ++ OpPut key v :: post /\
        Forall (fun o => is_clear o = false /\ forall v', o <> OpPut key v') post.
Proof.
  intros Hc.
  assert (@__init__ K c = inr {| capacity := c; cache := []; lock := false |})
    as Hinit by (unfold __init__; by rewrite (proj2 (Z.leb_gt _ _))).
  pose proof (init_ok c _ Hinit) as Hok0.
  destruct (serial_values os _ Hok0 eq_refl) as (rs & self & Hrun & Hok & Hlast).
  eexists _, rs, self. split; [exact Hinit|]. split; [done|].
  intros key v Hv. split; [|by apply Hlast].
  rewrite peek_unlocked by apply Hok. unfold od_get. by rewrite Hv.
Qed.

(** *** How long a key stays *)

Lemma newer_contains k d n : newer k d = Some n -> od_contains k d = true.
Proof.
  induction d as [|[k0 v0] d IH]; simpl; [done|].
  destruct (decide (k0 = k)); auto.
Qed.

Lemma newer_app k d d2 n :
  newer k d = Some n -> newer k (d ++ d2) = Some (n + length d2)%nat.
Proof.
  induction d as [|[k0 v0] d IH]; simpl; [done|].
  destruct (decide (k0 = k)); [|done].
  intros [= <-]. by rewrite length_app.
Qed.

Lemma newer_snoc_absent k v d :
  od_lookup k d = None -> newer k (d ++ [(k, v)]) = Some 0%nat.
Proof.
  induction d as [|[k0 v0] d IH]; simpl.
  - by rewrite decide_True.
  - destruct (decide (k0 = k)); [done|]. auto.
Qed.

Lemma od_remove_length_le key d : (length (od_remove key d) <= length d)%nat.
Proof.
  induction d as [|[k0 v0] d IH]; simpl; [done|].
  destruct (decide (k0 = key)); simpl; lia.
Qed.

Lemma newer_remove key k d n :
  key <> k -> newer k d = Some n ->
  exists n', newer k (od_remove key d) = Some n' /\ (n' <= n)%nat.
Proof.
  intros Hne. revert n. induction d as [|[k0 v0] d IH]; intros n; simpl; [done|].
  destruct (decide (k0 = k)) as [->|Hk].
  - intros [= <-]. rewrite decide_False by done. simpl.
    rewrite decide_True by done. eexists. split; [done|].
    apply od_remove_length_le.
  - intros Hn. destruct (decide (k0 = key)); [eauto|].
    simpl. rewrite decide_False by done. auto.
Qed.

(** A call other than [clear] puts one key more, at most, after a stored
    key, and keeps the key unless the capacity is reached. *)
Lemma cache_after_newer o c d k n :
  NoDup d.*1 -> newer k d = Some n -> Z.of_nat n + 1 < c ->
  is_clear o = false ->
  exists n', newer k (cache_after o c d) = Some n' /\ (n' <= n + 1)%nat.
Proof.
  intros Hnd Hn Hlt Hclear.
  assert (forall key v, od_contains key d = true ->
            exists n', newer k (od_remove key d ++ [(key, v)]) = Some n' /\
                       (n' <= n + 1)%nat) as Htouch.
  { intros key v Hin. destruct (decide (key = k)) as [->|Hne].
    - rewrite newer_snoc_absent by (by apply od_lookup_remove_eq).
      exists 0%nat. split; [done|lia].
    - destruct (newer_remove key k d n Hne Hn) as (n' & Hn' & Hle).
      rewrite (newer_app _ _ _ _ Hn'). eexists. split; [done|]. simpl. lia. }
  destruct o; cbn [cache_after]; try done; try (exists n; split; [done|lia]).
  - destruct (od_lookup key d) as [v|] eqn:Hv; [|exists n; split; [done|lia]].
    apply Htouch. apply od_contains_true. eauto.
  - destruct (od_contains key d) eqn:Hin; [by apply Htouch|].
    rewrite Z.geb_leb.
    destruct (c <=? od_len d) eqn:Hfull;
      [apply Z.leb_le in Hfull|rewrite (newer_app _ _ _ _ Hn); eauto].
    destruct d as [|[k0 v0] rest]; [done|]. simpl in Hn |- *.
    destruct (decide (k0 = k)).
    + injection Hn as <-. unfold od_len in Hfull. simpl in Hfull. lia.
    + rewrite (newer_app _ _ _ _ Hn). eauto.
Qed.

Lemma run_ops_newer (os : list (op K)) self k n :
  store_ok self -> newer k (cache self) = Some n ->
  Z.of_nat (n + length os) < capacity self ->
  Forall (fun o => is_clear o = false) os ->
  exists rs self',
    call (run_ops os) self = Return rs self' /\
    od_contains k (cache self') = true.
Proof.
  intros Hok Hn Hlt Hos. revert self n Hok Hn Hlt.
  induction Hos as [|o os Ho Hos IH]; intros self n Hok Hn Hlt.
  - exists [], self. split; [done|]. by eapply newer_contains.
  - destruct (run_op_cache_ok o self Hok) as (r & self1 & Hr & Hok1 & Hc1 & Hd1).
    simpl in Hlt.
    destruct (cache_after_newer o (capacity self) (cache self) k n
                (ok_nodup self Hok) Hn ltac:(lia) Ho) as (n' & Hn' & Hle).
    rewrite <- Hd1 in Hn'.
    destruct (IH self1 n' Hok1 Hn' ltac:(lia)) as (rs & self2 & Hrs & Hin).
    exists (r :: rs), self2. split; [by eapply run_ops_cons|done].
Qed.

(** X10.  On a reachable store, a key that has just been put, or just
    been got, is still stored after any further calls other than [clear],
    as long as they are fewer than the capacity. *)
Theorem recently_used_survives (os : list (op K)) self key :
  reachable self ->
  Forall (fun o => is_clear o = false) os ->
  Z.of_nat (length os) < capacity self ->
  (forall value, exists self1 rs self2,
     call (put key value) self = Return PyNone self1 /\
     call (run_ops os) self1 = Return rs self2 /\
     od_contains key (cache self2) = true) /\
  (od_contains key (cache self) = true ->
   exists r self1 rs self2,
     call (get key) self = Return r self1 /\
     call (run_ops os) self1 = Return rs self2 /\
     od_contains key (cache self2) = true).
Proof.
  intros Hok%reachable_ok Hos Hlt.
  assert (forall o, (exists value, o = OpPut key value) \/
                    (o = OpGet key /\ od_contains key (cache self) = true) ->
            exists r self1 rs self2,
              call (run_op o) self = Return r self1 /\
              call (run_ops os) self1 = Return rs self2 /\
              od_contains key (cache self2) = true) as Hused.
  { intros o Ho.
    destruct (run_op_cache_ok o self Hok) as (r & self1 & Hr & Hok1 & Hc1 & Hd1).
    destruct (cache_after_mru o (capacity self) (cache self) key Ho)
      as (d' & v & Hd' & _). rewrite Hd' in Hd1.
    assert (newer key (cache self1) = Some 0%nat) as Hn.
    { rewrite Hd1. apply newer_snoc_absent. apply (snoc_absent key v).
      rewrite <- Hd1. apply Hok1. }
    destruct (run_ops_newer os self1 key 0 Hok1 Hn ltac:(simpl; lia) Hos)
      as (rs & self2 & Hrs & Hin).
    eauto 10. }
  split.
  - intros value. destruct (Hused (OpPut key value)) as (r & self1 & rs & self2 & Hput & ?);
      [eauto|].
    cbn [run_op] in Hput. destruct (put_ok key value self Hok) as (s1 & Hput' & _).
    rewrite Hput' in Hput. injection Hput as <- ->. eauto.
  - intros Hin. destruct (Hused (OpGet key)) as (r & self1 & rs & self2 & ? & ?);
      [by right|]. eauto 10.
Qed.

(** *** Filling a store and reading it back *)

(** Getting, front to back, the keys of the first items of the
    dictionary moves these items behind the others, in the same order. *)
Lemma gets_rotate (l1 l2 : list (K * pyval)) self :
  store_ok self -> cache self = l1 ++ l2 ->
  exists self',
    call (run_ops (map (fun kv => OpGet kv.1) l1)) self = Return l1.*2 self' /\
    store_ok self' /\ capacity self' = capacity self /\
    cache self' = l2 ++ l1.
Proof.
  revert l2 self. induction l1 as [|[key v] l1 IH]; intros l2 self Hok Hd.
  - exists self. rewrite app_nil_r. split; [done|]. split; [done|].
    split; [done|]. exact Hd.
  - assert (od_lookup key (cache self) = Some v) as Hv
      by (rewrite Hd; simpl; by rewrite decide_True).
    pose proof (get_present_unlocked key v self Hok Hv) as Hget.
    destruct (get_ok key self Hok) as (r & self1 & Hget' & Hok1 & Hc1).
    rewrite Hget in Hget'. injection Hget' as <- Hself1.
    assert (cache self1 = l1 ++ (l2 ++ [(key, v)])) as Hd1.
    { rewrite <- Hself1, Hd. simpl. rewrite decide_True by done.
      by rewrite <- app_assoc. }
    destruct (IH _ self1 Hok1 Hd1) as (self2 & Hrun & Hok2 & Hc2 & Hd2).
    rewrite Hself1 in Hget.
    exists self2. split; [exact (run_ops_cons (OpGet key) _ _ _ _ _ _ Hget Hrun)|].
    split; [done|]. split; [congruence|]. by rewrite Hd2, <- app_assoc.
Qed.

Lemma store_ok_eq self1 self2 :
  store_ok self1 -> store_ok self2 ->
  capacity self1 = capacity self2 -> cache self1 = cache self2 ->
  self1 = self2.
Proof.
  intros [_ Hl1 _ _] [_ Hl2 _ _]. destruct self1, self2; simpl in *.
  by intros -> ->; subst.
Qed.

(** Filling a store whose dictionary is empty, and reading it back. *)
Lemma fill_then_gets (items : list (K * pyval)) self0 :
  store_ok self0 -> cache self0 = [] ->
  NoDup items.*1 -> Z.of_nat (length items) <= capacity self0 ->
  exists rs self,
    call (run_ops (map (fun kv => OpPut kv.1 kv.2) items)) self0
      = Return rs self /\
    store_ok self /\
    cache self = items /\
    call (run_ops (map (fun kv => OpGet kv.1) items)) self
      = Return items.*2 self.
Proof.
  intros Hok0 Hd0 Hnd Hle.
  destruct (puts_keep_newest _ items _ Hok0 Hd0 eq_refl Hnd)
    as (rs & self & Hrun & Hok & Hcap & Hd).
  replace (length items - Z.to_nat (capacity self0))%nat with 0%nat in Hd by lia.
  rewrite drop_0 in Hd.
  destruct (gets_rotate items [] self Hok) as (self' & Hgets & Hok' & Hc' & Hd');
    [by rewrite app_nil_r|].
  simpl in Hd'. rewrite <- Hd in Hd'.
  rewrite (store_ok_eq self' self Hok' Hok Hc' Hd') in Hgets.
  exists rs, self. split; [done|]. split; [done|]. by split.
Qed.

(** X11.  A new store of capacity [c] that is filled by puts of no more
    than [c] distinct keys holds them all, and getting the keys in the
    order of the puts returns the values in that order and leaves the store
    as the puts left it, recency order included. *)
Theorem fill_then_read_all c (items : list (K * pyval)) :
  0 < c -> NoDup items.*1 -> Z.of_nat (length items) <= c ->
  exists self0 rs self,
    __init__ c = inr self0 /\
    call (run_ops (map (fun kv => OpPut kv.1 kv.2) items)) self0
      = Return rs self /\
    cache self = items /\
    call (run_ops (map (fun kv => OpGet kv.1) items)) self
      = Return items.*2 self.
Proof.
  intros Hc Hnd Hle.
  assert (@__init__ K c = inr {| capacity := c; cache := []; lock := false |})
    as Hinit by (unfold __init__; by rewrite (proj2 (Z.leb_gt _ _))).
  pose proof (init_ok c _ Hinit) as Hok0.
  destruct (fill_then_gets items _ Hok0 eq_refl Hnd Hle)
    as (rs & self & Hputs & _ & Hd & Hgets).
  eexists _, rs, self. split; [exact Hinit|]. by repeat split.
Qed.

End CallEffects.

(** ** Threads that have made all their calls *)

Section ThreadsEnd.
Context {K : Type} `{EqDecision K}.
Implicit Types (self sigma : LRUCache K) (o : op K).
Implicit Types (th : thread K) (cfg : config K).
Implicit Types (log : list (nat * (op K * pyval))).

(** When all threads have ended, the lock is free, the object is in the
    state the serial order ends in, and the order holds, of each thread,
    the calls of its program. *)
Lemma final_inv self0 (programs : list (list (op K))) cfg log sigma :
  config_inv self0 programs cfg log sigma ->
  Forall finished (threads cfg) ->
  shared cfg = sigma /\
  forall t os, programs !! t = Some os -> (log_of t log).*1 = os.
Proof.
  intros (Hrun & Hok & Hcap & Hlen & Hlt & Hcase) Hfin.
  rewrite Forall_lookup in Hfin.
  destruct Hcase as [(Hl & Hsh & Hout)
                    |(t0 & th0 & os0 & _ & Hth0 & _ & Hin & _)].
  - split; [done|]. intros t os Hos.
    assert (t < length (threads cfg))%nat as Htlt
      by (rewrite Hlen; by eapply lookup_lt_Some).
    destruct (lookup_lt_is_Some_2 _ t Htlt) as [th Hth].
    destruct (Hfin t th Hth) as [Hcur Hpend].
    destruct (Hout t th os Hth Hos) as [_ Hinv].
    rewrite Hcur, Hpend, app_nil_r in Hinv. destruct Hinv as [-> ->]. done.
  - destruct Hin as (_ & o & p & r & Hcur & _).
    destruct (Hfin t0 th0 Hth0) as [Hnone _]. congruence.
Qed.

Lemma elem_of_concat {A} (x : A) (ls : list (list A)) :
  x ∈ concat ls <-> exists l, x ∈ l /\ l ∈ ls.
Proof.
  induction ls as [|l ls IH]; simpl.
  - split; [by intros ?%elem_of_nil|]. by intros (l & _ & ?%elem_of_nil).
  - rewrite elem_of_app, IH. split.
    + intros [Hx|(l' & Hx & Hl')].
      * exists l. split; [done|]. by left.
      * exists l'. split; [done|]. by right.
    + intros (l' & Hx & [->|Hl']%elem_of_cons); [by left|right; eauto].
Qed.

(** The calls of the serial order are the calls of the programs. *)
Lemma log_ops_programs (programs : list (list (op K))) log o :
  Forall (fun e => (e.1 < length programs)%nat) log ->
  (forall t os, programs !! t = Some os -> (log_of t log).*1 = os) ->
  o ∈ log_ops log <-> o ∈ concat programs.
Proof.
  intros Hlt Hproj. rewrite elem_of_concat. unfold log_ops. split.
  - intros (oe & -> & (e & -> & He)%list_elem_of_fmap)%list_elem_of_fmap.
    rewrite Forall_forall in Hlt. pose proof (Hlt e He) as Ht.
    destruct (lookup_lt_is_Some_2 _ _ Ht) as [os Hos].
    exists os. split; [|by eapply list_elem_of_lookup_2].
    rewrite <- (Hproj _ _ Hos). unfold log_of.
    apply list_elem_of_fmap. exists e.2. split; [done|].
    apply list_elem_of_fmap. exists e. split; [done|].
    by apply list_elem_of_filter.
  - intros (os & Ho & [t Hos]%list_elem_of_lookup_1).
    rewrite <- (Hproj _ _ Hos) in Ho. unfold log_of in Ho.
    apply list_elem_of_fmap in Ho as (oe & -> & Hoe).
    apply list_elem_of_fmap in Hoe as (e & -> & He).
    apply list_elem_of_filter in He as [_ He].
    apply list_elem_of_fmap. exists e.2. split; [done|].
    apply list_elem_of_fmap. eauto.
Qed.

Lemma put_keys_elem (os : list (op K)) k :
  k ∈ put_keys os <-> exists v, OpPut k v ∈ os.
Proof.
  unfold put_keys. rewrite list_elem_of_omap. split.
  - intros (o & Ho & Hk). destruct o; try done. injection Hk as ->. eauto.
  - intros [v Hv]. eauto.
Qed.

Lemma remove_dups_length_ext (l1 l2 : list K) :
  (forall x, x ∈ l1 <-> x ∈ l2) ->
  length (remove_dups l1) = length (remove_dups l2).
Proof.
  intros Hext. apply Permutation_length, NoDup_Permutation;
    [apply NoDup_remove_dups..|].
  intros x. by rewrite !elem_of_remove_dups.
Qed.

Lemma final_occupancy c self0 (programs : list (list (op K))) schedule cfg :
  __init__ c = inr self0 ->
  exec schedule (start self0 programs) = Some cfg ->
  Forall finished (threads cfg) ->
  Forall (Forall (fun o => is_clear o = false)) programs ->
  store_ok (shared cfg) /\ capacity (shared cfg) = c /\
  occupancy (shared cfg)
    = Z.min c (Z.of_nat (length (remove_dups (put_keys (concat programs))))) /\
  forall k, od_contains k (cache (shared cfg)) = true ->
            k ∈ put_keys (concat programs).
Proof.
  intros Hinit Hexec Hfin Hclear.
  destruct (exec_inv _ _ _ _ _ _ _ (start_inv c self0 programs Hinit) Hexec)
    as (log & sigma & Hinv).
  destruct (final_inv _ _ _ _ _ Hinv Hfin) as [Hsh Hproj].
  destruct Hinv as (Hrun & Hok & Hcap & Hlen & Hlt & _).
  pose proof (log_ops_programs programs log) as Hops.
  assert (Forall (fun o => is_clear o = false) (log_ops log)) as Hclear'.
  { apply Forall_forall. intros o Ho%Hops; [|done..].
    apply elem_of_concat in Ho as (os & Ho & Hos).
    rewrite Forall_forall in Hclear. pose proof (Hclear os Hos) as Hos'.
    rewrite Forall_forall in Hos'. auto. }
  assert (forall k, k ∈ put_keys (log_ops log) <-> k ∈ put_keys (concat programs))
    as Hkeys.
  { intros k. rewrite !put_keys_elem. split; intros [v Hv]; exists v.
    - by apply Hops.
    - by apply Hops. }
  pose proof (init_ok c self0 Hinit) as Hok0.
  assert (cache self0 = []) as Hd0.
  { unfold __init__ in Hinit. destruct (c <=? 0); [done|]. by injection Hinit as <-. }
  assert (capacity self0 = c) as Hc0.
  { unfold __init__ in Hinit. destruct (c <=? 0); [done|]. by injection Hinit as <-. }
  destruct (serial_keys (log_ops log) self0 Hok0 Hd0 Hclear')
    as (rs & self & Hrun' & Hok' & Hcap' & Hsub & Hall).
  rewrite Hrun in Hrun'. injection Hrun' as _ <-.
  pose proof (occupancy_min _ sigma Hok Hsub Hall) as Hocc.
  rewrite Hsh. split; [done|]. split; [congruence|]. split.
  - rewrite Hocc, Hcap, Hc0.
    by rewrite (remove_dups_length_ext _ _ Hkeys).
  - intros k Hk. by apply Hkeys, Hsub.
Qed.


(** X12.  Threads that call [get], [put], [peek], [get_size] and
    [is_full] on a new store of capacity [c], interleaved in any way: once
    all of them have ended, [get_size()] returns the number of distinct
    keys that the threads have put, or [c] when they are more, and every
    key stored is one that some thread has put. *)
Theorem threads_final_occupancy c self0 (programs : list (list (op K)))
    schedule cfg :
  __init__ c = inr self0 ->
  exec schedule (start self0 programs) = Some cfg ->
  Forall finished (threads cfg) ->
  Forall (Forall (fun o => is_clear o = false)) programs ->
  call get_size (shared cfg)
    = Return
        (PyInt (Z.min c (Z.of_nat
                  (length (remove_dups (put_keys (concat programs)))))))
        (shared cfg) /\
  forall k, od_contains k (cache (shared cfg)) = true ->
            k ∈ put_keys (concat programs).
Proof.
  intros Hinit Hexec Hfin Hclear.
  destruct (final_occupancy c self0 programs schedule cfg Hinit Hexec Hfin Hclear)
    as (Hok & _ & Hocc & Hsub).
  split; [|done]. rewrite get_size_unlocked by apply Hok. by rewrite Hocc.
Qed.

End ThreadsEnd.

(** ** [test_concurrent_access] and the loops of [main] *)

Lemma key_of_inj : Inj (=) (=) key_of.
Proof.
  intros i j Heq. unfold key_of in Heq.
  apply (inj (String.app "key")) in Heq. by apply (inj pretty) in Heq.
Qed.

Lemma put_loop_items n :
  put_loop n =
    map (fun kv => OpPut kv.1 kv.2)
        (map (fun i => (key_of i, value_of i)) (seq 0 n)).
Proof. unfold put_loop. by rewrite map_map. Qed.

Lemma get_loop_items n :
  get_loop n =
    map (fun kv : string * pyval => OpGet kv.1)
        (map (fun i => (key_of i, value_of i)) (seq 0 n)).
Proof. unfold get_loop. by rewrite map_map. Qed.

(** X13.  Whatever the order in which the two threads of
    [test_concurrent_access] step, the store it returns is full:
    [get_size()] returns 2, as [main] prints, and [is_full()] returns
    [True]; the keys in it are among [key0] ... [key4].  Which keys they
    are depends on that order: [key3] and [key4] after one order, [key2]
    and [key4] after another. *)
Theorem test_concurrent_access_size :
  (forall store,
     test_concurrent_access store ->
     call get_size store = Return (PyInt 2) store /\
     call is_full store = Return (PyBool true) store /\
     forall k, od_contains k (cache store) = true ->
               k ∈ map key_of (seq 0 5)) /\
  test_concurrent_access
    {| capacity := 2;
       cache := [("key3", PyStr "value3"); ("key4", PyStr "value4")];
       lock := false |} /\
  test_concurrent_access
    {| capacity := 2;
       cache := [("key2", PyStr "value2"); ("key4", PyStr "value4")];
       lock := false |}.
Proof.
  split; [|split].
  - intros store (self0 & schedule & cfg & Hinit & Hexec & Hfin & <-).
    assert (Forall (Forall (fun o : op string => is_clear o = false))
              [put_loop 5; get_loop 5]) as Hclear by (repeat constructor).
    destruct (final_occupancy 2 self0 _ schedule cfg Hinit Hexec Hfin Hclear)
      as (Hok & Hcap & Hocc & Hsub).
    assert (occupancy (shared cfg) = 2) as Hocc2 by (rewrite Hocc; reflexivity).
    split; [|split].
    + rewrite get_size_unlocked by apply Hok. by rewrite Hocc2.
    + rewrite is_full_unlocked by apply Hok. by rewrite Hocc2, Hcap.
    + intros k Hk. apply Hsub in Hk. exact Hk.
  - exists {| capacity := 2; cache := []; lock := false |}.
    exists (replicate 43 0 ++ replicate 29 1)%nat. eexists.
    split; [reflexivity|]. split; [vm_compute; reflexivity|].
    split; [by repeat constructor|reflexivity].
  - exists {| capacity := 2; cache := []; lock := false |}.
    exists (replicate 34 0 ++ replicate 17 1 ++ replicate 9 0 ++ replicate 12 1)%nat.
    eexists.
    split; [reflexivity|]. split; [vm_compute; reflexivity|].
    split; [by repeat constructor|reflexivity].
Qed.

(** X14.  The two loops of the performance test of [main], for any
    number [n] of keys on a store of capacity [n] or more ([main] has
    1000 and 1000): the first loop stores the [n] keys, none being
    evicted, and in the second loop every [get] returns the value put
    for its key; the store is then as the first loop left it. *)
Theorem main_loops_hit (n : nat) (c : Z) :
  0 < c -> Z.of_nat n <= c ->
  exists self0 rs self,
    __init__ c = inr self0 /\
    call (run_ops (put_loop n)) self0 = Return rs self /\
    call get_size self = Return (PyInt (Z.of_nat n)) self /\
    call (run_ops (get_loop n)) self = Return (map value_of (seq 0 n)) self.
Proof.
  intros Hc Hn.
  set (items := map (fun i => (key_of i, value_of i)) (seq 0 n)).
  assert (items.*1 = map key_of (seq 0 n)) as Hkeys
    by (unfold items; by rewrite <- list_fmap_compose).
  assert (items.*2 = map value_of (seq 0 n)) as Hvalues
    by (unfold items; by rewrite <- list_fmap_compose).
  assert (length items = n) as Hlen
    by (unfold items; by rewrite length_map, length_seq).
  assert (__init__ c = inr {| capacity := c; cache := @nil (string * pyval);
                            lock := false |})
    as Hinit by (unfold __init__; by rewrite (proj2 (Z.leb_gt _ _))).
  pose proof (init_ok c _ Hinit) as Hok0.
  destruct (fill_then_gets items _ Hok0 eq_refl)
    as (rs & self & Hputs & Hok & Hd & Hgets).
  { rewrite Hkeys. pose proof key_of_inj as Hinj.
    apply (NoDup_fmap_2 key_of), NoDup_seq. }
  { by rewrite Hlen. }
  eexists _, rs, self. split; [exact Hinit|].
  rewrite put_loop_items, get_loop_items, <- Hvalues.
  split; [done|]. split; [|done].
  rewrite get_size_unlocked by apply Hok.
  unfold occupancy, od_len. by rewrite Hd, Hlen.
Qed.

(** ** The further statements at concrete stores *)

Lemma clear_gives_new_store_witness :
  reachable demo_full /\
  call clear demo_full = Return PyNone demo_empty /\
  call (get 1) demo_empty = Return (PyInt (-1)) demo_empty.
Proof.
  split; [exact demo_full_reachable|].
  destruct (clear_gives_new_store demo_full demo_full_reachable)
    as (self' & Hclear & Hinit & _ & _ & Hmiss).
  injection Hinit as <-. split; [exact Hclear|]. exact (proj1 (Hmiss 1)).
Defined.

Lemma is_full_tells_eviction_witness :
  reachable demo_full /\
  call is_full demo_full = Return (PyBool true) demo_full.
Proof.
  split; [exact demo_full_reachable|].
  destruct (is_full_tells_eviction demo_full demo_full_reachable)
    as (b & Hfull & Hiff & _).
  rewrite (proj2 Hiff eq_refl) in Hfull. exact Hfull.
Defined.

Lemma put_then_read_witness :
  reachable demo_full /\
  exists self1,
    call (put 3 (PyStr "three")) demo_full = Return PyNone self1 /\
    call (peek 3) self1 = Return (PyStr "three") self1 /\
    call (get 3) self1 = Return (PyStr "three") self1.
Proof.
  split; [exact demo_full_reachable|].
  destruct (put_then_read demo_full 3 (PyStr "three") demo_full_reachable)
    as (self1 & Hput & _ & Hpeek & Hget).
  exists self1. split; [exact Hput|]. split; [exact Hpeek|exact Hget].
Defined.

Lemma capacity_one_keeps_last_put_witness :
  reachable {| capacity := 1; cache := [(7, PyInt (-1))]; lock := false |} /\
  exists self',
    call (put 5 PyNone)
      {| capacity := 1; cache := [(7, PyInt (-1))]; lock := false |}
      = Return PyNone self' /\
    cache self' = [(5, PyNone)].
Proof.
  assert (reachable {| capacity := 1; cache := [(7, PyInt (-1))];
                       lock := false |}) as Hr.
  { apply (reachable_return (OpPut 7 (PyInt (-1))) PyNone
             {| capacity := 1; cache := []; lock := false |});
      [|reflexivity].
    apply (reachable_init 1). reflexivity. }
  split; [exact Hr|].
  exact (capacity_one_keeps_last_put _ 5 PyNone Hr eq_refl).
Defined.

Lemma repeated_call_changes_nothing_witness :
  reachable demo_full /\
  exists r self1,
    call (get 1) demo_full = Return r self1 /\
    call (get 1) self1 = Return r self1.
Proof.
  split; [exact demo_full_reachable|].
  exact (proj1 (repeated_call_changes_nothing demo_full 1 demo_full_reachable)).
Defined.

Lemma occupancy_only_grows_witness :
  reachable demo_full /\
  Forall (fun o : op Z => is_clear o = false)
    [OpGet 1; OpPut 3 (PyStr "three"); OpPeek 2] /\
  exists rs self',
    call (run_ops [OpGet 1; OpPut 3 (PyStr "three"); OpPeek 2]) demo_full
      = Return rs self' /\
    occupancy self' = capacity self'.
Proof.
  assert (Forall (fun o : op Z => is_clear o = false)
            [OpGet 1; OpPut 3 (PyStr "three"); OpPeek 2]) as Hos
    by (repeat constructor).
  split; [exact demo_full_reachable|]. split; [exact Hos|].
  destruct (occupancy_only_grows _ demo_full demo_full_reachable Hos)
    as (rs & self' & Hrun & _ & Hfull & _).
  exists rs, self'. split; [exact Hrun|]. exact (Hfull eq_refl).
Defined.

Lemma distinct_puts_keep_newest_witness :
  0 < 2 /\
  NoDup [(1 : Z, PyStr "one"); (2, PyStr "two"); (3, PyStr "three")].*1 /\
  exists self0 rs self,
    __init__ 2 = inr self0 /\
    call (run_ops [OpPut 1 (PyStr "one"); OpPut 2 (PyStr "two");
                   OpPut 3 (PyStr "three")]) self0 = Return rs self /\
    cache self = [(2, PyStr "two"); (3, PyStr "three")].
Proof.
  assert (NoDup [(1 : Z, PyStr "one"); (2, PyStr "two");
                 (3, PyStr "three")].*1) as Hnd
    by compute_done.
  split; [lia|]. split; [exact Hnd|].
  destruct (distinct_puts_keep_newest 2 _ ltac:(lia) Hnd)
    as (self0 & rs & self & Hinit & Hrun & Hd & _).
  exists self0, rs, self. split; [exact Hinit|]. split; [exact Hrun|exact Hd].
Defined.

Lemma occupancy_counts_distinct_puts_witness :
  0 < 2 /\
  Forall (fun o : op Z => is_clear o = false)
    [OpPut 1 PyNone; OpPut 2 PyNone; OpGet 1; OpPut 1 PyNone; OpPut 3 PyNone] /\
  exists self0 rs self,
    __init__ 2 = inr self0 /\
    call (run_ops [OpPut 1 PyNone; OpPut 2 PyNone; OpGet 1; OpPut 1 PyNone;
                   OpPut 3 PyNone]) self0 = Return rs self /\
    call get_size self = Return (PyInt 2) self.
Proof.
  assert (Forall (fun o : op Z => is_clear o = false)
            [OpPut 1 PyNone; OpPut 2 PyNone; OpGet 1; OpPut 1 PyNone;
             OpPut 3 PyNone]) as Hos by (repeat constructor).
  split; [lia|]. split; [exact Hos|].
  destruct (occupancy_counts_distinct_puts 2 _ ltac:(lia) Hos)
    as (self0 & rs & self & Hinit & Hrun & _ & Hsize & _).
  exists self0, rs, self. split; [exact Hinit|]. split; [exact Hrun|exact Hsize].
Defined.

Lemma stored_value_is_last_put_witness :
  0 < 2 /\
  exists (self0 : LRUCache Z) rs self,
    __init__ 2 = inr self0 /\
    call (run_ops [OpPut 1 (PyStr "one"); OpPut 1 (PyStr "uno")]) self0
      = Return rs self /\
    forall key v,
      od_lookup key (cache self) = Some v ->
      call (peek key) self = Return v self /\
      exists pre post,
        [OpPut 1 (PyStr "one"); OpPut 1 (PyStr "uno")]
          = pre ++ OpPut key v :: post /\
        Forall (fun o => is_clear o = false /\ forall v', o <> OpPut key v') post.
Proof.
  split; [lia|].
  exact (stored_value_is_last_put 2
           [OpPut 1 (PyStr "one"); OpPut 1 (PyStr "uno")] ltac:(lia)).
Defined.

Lemma recently_used_survives_witness :
  reachable demo_full /\
  Forall (fun o : op Z => is_clear o = false) [OpPut 3 (PyStr "three")] /\
  Z.of_nat (length [OpPut 3 (PyStr "three")]) < capacity demo_full /\
  exists r self1 rs self2,
    call (get 1) demo_full = Return r self1 /\
    call (run_ops [OpPut 3 (PyStr "three")]) self1 = Return rs self2 /\
    od_contains 1 (cache self2) = true.
Proof.
  assert (Forall (fun o : op Z => is_clear o = false)
            [OpPut 3 (PyStr "three")]) as Hos by (repeat constructor).
  assert (Z.of_nat (length [OpPut (3 : Z) (PyStr "three")]) < capacity demo_full)
    as Hlt by (simpl; lia).
  split; [exact demo_full_reachable|]. split; [exact Hos|]. split; [exact Hlt|].
  exact (proj2 (recently_used_survives _ demo_full 1 demo_full_reachable Hos Hlt)
           eq_refl).
Defined.

Lemma fill_then_read_all_witness :
  0 < 2 /\
  NoDup [(1 : Z, PyStr "one"); (2, PyStr "two")].*1 /\
  Z.of_nat (length [(1 : Z, PyStr "one"); (2, PyStr "two")]) <= 2 /\
  exists self0 rs self,
    __init__ 2 = inr self0 /\
    call (run_ops [OpPut 1 (PyStr "one"); OpPut 2 (PyStr "two")]) self0
      = Return rs self /\
    cache self = [(1, PyStr "one"); (2, PyStr "two")] /\
    call (run_ops [OpGet 1; OpGet 2]) self
      = Return [PyStr "one"; PyStr "two"] self.
Proof.
  assert (NoDup [(1 : Z, PyStr "one"); (2, PyStr "two")].*1) as Hnd
    by compute_done.
  assert (Z.of_nat (length [(1 : Z, PyStr "one"); (2, PyStr "two")]) <= 2)
    as Hle by (simpl; lia).
  split; [lia|]. split; [exact Hnd|]. split; [exact Hle|].
  exact (fill_then_read_all 2 _ ltac:(lia) Hnd Hle).
Defined.

Lemma demo_final_finished : Forall finished (threads demo_final).
Proof. by repeat constructor. Qed.

Lemma threads_final_occupancy_witness :
  __init__ 2 = inr demo_empty /\
  exec demo_schedule (start demo_empty demo_programs) = Some demo_final /\
  Forall finished (threads demo_final) /\
  Forall (Forall (fun o : op Z => is_clear o = false)) demo_programs /\
  call get_size (shared demo_final) = Return (PyInt 2) (shared demo_final).
Proof.
  assert (Forall (Forall (fun o : op Z => is_clear o = false)) demo_programs)
    as Hclear by (repeat constructor).
  split; [reflexivity|]. split; [exact demo_exec|].
  split; [exact demo_final_finished|]. split; [exact Hclear|].
  exact (proj1 (threads_final_occupancy 2 demo_empty demo_programs
                  demo_schedule demo_final eq_refl demo_exec
                  demo_final_finished Hclear)).
Defined.

Lemma test_concurrent_access_size_witness :
  test_concurrent_access
    {| capacity := 2;
       cache := [("key2", PyStr "value2"); ("key4", PyStr "value4")];
       lock := false |} /\
  call get_size
    {| capacity := 2;
       cache := [("key2", PyStr "value2"); ("key4", PyStr "value4")];
       lock := false |}
    = Return (PyInt 2)
        {| capacity := 2;
           cache := [("key2", PyStr "value2"); ("key4", PyStr "value4")];
           lock := false |}.
Proof.
  destruct test_concurrent_access_size as (Hall & _ & Hsome).
  split; [exact Hsome|]. exact (proj1 (Hall _ Hsome)).
Defined.

Lemma main_loops_hit_witness :
  0 < 1000 /\ Z.of_nat 1000 <= 1000 /\
  exists self0 rs self,
    __init__ 1000 = inr self0 /\
    call (run_ops (put_loop 1000)) self0 = Return rs self /\
    call get_size self = Return (PyInt (Z.of_nat 1000)) self /\
    call (run_ops (get_loop 1000)) self
      = Return (map value_of (seq 0 1000)) self.
Proof.
  assert (Z.of_nat 1000 <= 1000) as Hle by (by vm_compute).
  split; [lia|]. split; [exact Hle|].
  exact (main_loops_hit 1000 1000 ltac:(lia) Hle).
Defined.
